(** * Summarizer dashboard (main.py): link filter, content acquirer and
    the button handler, embedded as Rocq functions.

    Python [str] values are sequences of Unicode code points; they are
    modelled as lists of [N].  External collaborators (the two document
    loaders, the yt-dlp subprocess, the URL validator and the summarization
    chain) are fields of a [World] record; every call to one of them and
    every Streamlit widget call is recorded in a trace of [event]s. *)

From Stdlib Require Import Ascii String.
From Stdlib Require DecimalString.
From Stdlib Require Import List Bool Arith NArith ZArith Lia.
Import ListNotations.

Set Implicit Arguments.

(** ** Python strings *)

Module PyStr.

Definition str := list N.

(** A source-code literal (all literals used below are ASCII). *)
Definition lit (s : string) : str :=
  List.map N_of_ascii (list_ascii_of_string s).

(** [str.isspace] on one code point; the same table drives [str.split()],
    [str.strip()] and the regex classes [\s] / [\S]. *)
Definition is_space (c : N) : bool :=
  ((9 <=? c) && (c <=? 13) ||
   (28 <=? c) && (c <=? 32) ||
   (c =? 0x85) || (c =? 0xA0) || (c =? 0x1680) ||
   (0x2000 <=? c) && (c <=? 0x200A) ||
   (c =? 0x2028) || (c =? 0x2029) || (c =? 0x202F) ||
   (c =? 0x205F) || (c =? 0x3000))%N.

(** [str.lower] on one code point.  [A-Z] map to [a-z]; U+0130 lowers to
    [i] followed by U+0307 and U+212A (Kelvin sign) lowers to [k].  These
    are the only code points whose lowercase form contains an ASCII
    character different from the code point itself; every other code point
    is kept as it is, which leaves every membership test against an ASCII
    needle unchanged. *)
Definition lower_char (c : N) : str :=
  (if (65 <=? c) && (c <=? 90) then [c + 32]
   else if c =? 0x130 then [105; 0x307]
   else if c =? 0x212A then [107]
   else [c])%N.

Definition lower (s : str) : str := flat_map lower_char s.

(** [s.startswith(p)] *)
Fixpoint starts_with (p s : str) : bool :=
  match p, s with
  | [], _ => true
  | _ :: _, [] => false
  | a :: p', b :: s' => N.eqb a b && starts_with p' s'
  end.

(** [needle in s] *)
Fixpoint str_in (needle s : str) : bool :=
  starts_with needle s ||
  match s with
  | [] => false
  | _ :: s' => str_in needle s'
  end.

(** Stripping: [lstrip], [rstrip] and [strip] remove, from the left end,
    the right end, or both, the longest run of characters of a class. *)
Fixpoint lstrip_by (f : N -> bool) (s : str) : str :=
  match s with
  | [] => []
  | c :: s' => if f c then lstrip_by f s' else s
  end.

Definition rstrip_by (f : N -> bool) (s : str) : str :=
  rev (lstrip_by f (rev s)).

Definition strip_by (f : N -> bool) (s : str) : str :=
  rstrip_by f (lstrip_by f s).

Definition char_in (chars : str) (c : N) : bool := existsb (N.eqb c) chars.

(** [s.strip(chars)] and [s.rstrip(chars)] *)
Definition strip_chars (chars s : str) : str := strip_by (char_in chars) s.
Definition rstrip_chars (chars s : str) : str := rstrip_by (char_in chars) s.

(** [s.strip()] *)
Definition strip (s : str) : str := strip_by is_space s.

(** [s.split()]: the maximal runs of non-whitespace characters, in order.
    [cur] holds the run being read, reversed. *)
Definition flush (cur : str) : list str :=
  match cur with
  | [] => []
  | _ :: _ => [rev cur]
  end.

Fixpoint split_from (cur : str) (s : str) : list str :=
  match s with
  | [] => flush cur
  | c :: s' =>
      if is_space c then flush cur ++ split_from [] s'
      else split_from (c :: cur) s'
  end.

Definition split (s : str) : list str := split_from [] s.

(** [sep.join(parts)] *)
Fixpoint join (sep : str) (parts : list str) : str :=
  match parts with
  | [] => []
  | [p] => p
  | p :: rest => p ++ sep ++ join sep rest
  end.

(** Python truthiness of a string and of a list. *)
Definition truthy {A} (l : list A) : bool :=
  match l with [] => false | _ :: _ => true end.

End PyStr.
Import PyStr.

(** ** Link filter (main.py, [filter_links]) *)

Definition socials : list str :=
  [lit "facebook.com"; lit "instagram.com"; lit "twitter.com";
   lit "linkedin.com"; lit "youtube.com"].

(** The guard of the loop body: [any(social in link.lower() for social in [...])]. *)
Definition is_social (link : str) : bool :=
  existsb (fun social => str_in social (lower link)) socials.

(** One iteration of [for link in links]: either [continue] or
    [filtered.append(link.strip(".,)"))]. *)
Definition filter_step (filtered : list str) (link : str) : list str :=
  if is_social link then filtered
  else filtered ++ [strip_chars (lit ".,)") link].

Definition filter_links (links : list str) : list str :=
  fold_left filter_step links [].

(** ** Link extraction: [re.findall(r'https?://\S+', all_text)] *)

Definition non_space (c : N) : bool := negb (is_space c).

Fixpoint take_while (f : N -> bool) (s : str) : str :=
  match s with
  | [] => []
  | c :: s' => if f c then c :: take_while f s' else []
  end.

(** [://\S+] anchored at the head of [s]: the length of the greedy match. *)
Definition match_tail (s : str) : option nat :=
  if starts_with (lit "://") s then
    match List.length (take_while non_space (skipn 3 s)) with
    | O => None
    | S n => Some (3 + S n)
    end
  else None.

(** The whole pattern anchored at the head of [s].  The optional [s] is
    greedy: the branch that consumes it is tried first. *)
Definition match_url (s : str) : option nat :=
  if starts_with (lit "http") s then
    let s1 := skipn 4 s in
    let with_s :=
      match s1 with
      | c :: s2 => if N.eqb c 115 then option_map (Nat.add 5) (match_tail s2)
                   else None
      | [] => None
      end in
    match with_s with
    | Some n => Some n
    | None => option_map (Nat.add 4) (match_tail s1)
    end
  else None.

(** The scan of [findall]: leftmost matches, none overlapping.  [skip]
    counts the characters of the last match still to be passed over. *)
Fixpoint findall_from (skip : nat) (s : str) : list str :=
  match s with
  | [] => []
  | _ :: s' =>
      match skip with
      | S k => findall_from k s'
      | O =>
          match match_url s with
          | Some n => firstn n s :: findall_from (n - 1) s'
          | None => findall_from 0 s'
          end
      end
  end.

Definition findall_urls (text : str) : list str := findall_from 0 text.

(** ** Documents, the outside world and the trace of effects *)

(** [langchain.schema.Document]: text and a metadata dict. *)
Record Document := mkDocument {
  page_content : str;
  metadata : list (str * str)
}.

(** The outcome of a call that may raise; an exception is kept as its
    [str()], which is all the handlers use. *)
Inductive outcome (A : Type) : Type :=
| Returns (a : A)
| Raises (err : str).
Arguments Returns {A} a.
Arguments Raises {A} err.

Inductive style := BulletPoints | NumberedList | Paragraph.

Record World := mkWorld {
  (** [validators.url(u)] is truthy *)
  validators_url : str -> bool;
  (** [YoutubeLoader.from_youtube_url(u, add_video_info=True).load()] *)
  YoutubeLoader_load : str -> outcome (list Document);
  (** [subprocess.run(argv, capture_output=True, text=True).stdout] *)
  subprocess_run : list str -> outcome str;
  (** [UnstructuredURLLoader(urls=..., ssl_verify=False, headers=...).load()] *)
  UnstructuredURLLoader_load : list str -> outcome (list Document);
  (** [load_summarize_chain(llm, "map_reduce", ...).invoke(...)["output_text"]],
      the two prompts being built from the style and the length *)
  chain_invoke : style -> Z -> list Document -> outcome str
}.

(** The texts shown by [st.error]. *)
Inductive message :=
| msg_no_api_key                 (* No Groq API key found! ... *)
| msg_enter_url                  (* Please enter a YouTube or Website URL *)
| msg_invalid_url                (* Invalid URL format. ... *)
| msg_youtube_failed (err : str) (* Failed to extract YouTube content: {err} *)
| msg_website_failed (err : str) (* Failed to load website content: {err} *)
| msg_no_content                 (* No content found. Try another link. *)
| msg_error (err : str).         (* Error: {err} *)

Inductive event :=
| ev_load_docs (url : str)
| ev_YoutubeLoader (url : str)
| ev_subprocess_run (argv : list str)
| ev_UnstructuredURLLoader (urls : list str)
| ev_chain_invoke (docs : list Document)
| st_error (m : message)
| st_stop
| st_tabs
| st_summary (output_summary : str)
| st_download_button (data : str)
| st_links_open
| st_link (link : str)
| st_links_close
| st_info_no_links
| st_stats (word_count link_count : nat).

(** Computations: the events performed so far, and a value or a raised
    exception. *)
Module Eff.

Definition M (A : Type) : Type := (list event * outcome A)%type.

Definition ret {A} (a : A) : M A := ([], Returns a).

Definition bind {A B} (m : M A) (k : A -> M B) : M B :=
  match m with
  | (t, Returns a) => let '(t', r) := k a in (t ++ t', r)
  | (t, Raises e) => (t, Raises e)
  end.

Definition emit (e : event) : M unit := ([e], Returns tt).

(** A call to the outside world, logged. *)
Definition call {A} (e : event) (r : outcome A) : M A := ([e], r).

(** [try: m  except Exception as e: h e] *)
Definition try {A} (m : M A) (h : str -> M A) : M A :=
  match m with
  | (t, Returns a) => (t, Returns a)
  | (t, Raises e) => let '(t', r) := h e in (t ++ t', r)
  end.

(** [for x in xs: body x] *)
Fixpoint for_each {A} (xs : list A) (body : A -> M unit) : M unit :=
  match xs with
  | [] => ret tt
  | x :: xs' => bind (body x) (fun _ => for_each xs' body)
  end.

Definition trace {A} (m : M A) : list event := fst m.
Definition value {A} (m : M A) : outcome A := snd m.

End Eff.
Import Eff.

Declare Scope eff_scope.
Delimit Scope eff_scope with eff.
Notation "x <- m ;; k" := (bind m (fun x => k))
  (at level 61, m at next level, right associativity) : eff_scope.
Notation "m ;; k" := (bind m (fun _ => k))
  (at level 61, right associativity) : eff_scope.
Local Open Scope eff_scope.

(** ** Content acquirer (main.py, [load_docs]) *)

Definition is_video_url (url : str) : bool :=
  str_in (lit "youtube.com") url || str_in (lit "youtu.be") url.

Definition yt_dlp_argv (url : str) : list str :=
  [lit "yt-dlp"; lit "--get-title"; lit "--get-description"; url].

(** The body of [load_docs]; [None] is Python's [None].  The function is
    wrapped by [st.cache_data], which replays the body's result for a
    repeated argument; what is modelled is the body.  The decorated
    function is [load_docs_cached] below. *)
Definition load_docs (w : World) (url : str) : M (option (list Document)) :=
  if is_video_url url then
    try (docs <- call (ev_YoutubeLoader url) (YoutubeLoader_load w url) ;;
         ret (Some docs))
        (fun _ =>
           try (stdout <- call (ev_subprocess_run (yt_dlp_argv url))
                               (subprocess_run w (yt_dlp_argv url)) ;;
                let yt_text := strip stdout in
                if truthy yt_text then
                  ret (Some [mkDocument yt_text [(lit "source", url)]])
                else ret None)
               (fun yt_err =>
                  emit (st_error (msg_youtube_failed yt_err)) ;;
                  ret None))
  else
    try (docs <- call (ev_UnstructuredURLLoader [url])
                      (UnstructuredURLLoader_load w [url]) ;;
         ret (Some docs))
        (fun web_err =>
           emit (st_error (msg_website_failed web_err)) ;;
           ret None).

(** ** The button handler (main.py, lines 130-197) *)

Record Options := mkOptions {
  summary_length : Z;
  show_links : bool;
  summary_style : style
}.

(** [if docs:] on a value that is [None] or a list. *)
Definition docs_truthy (docs : option (list Document)) : bool :=
  match docs with
  | None => false
  | Some l => truthy l
  end.

Definition docs_list (docs : option (list Document)) : list Document :=
  match docs with
  | None => []
  | Some l => l
  end.

Definition extract_links (o : Options) (docs : list Document) : list str :=
  let all_text := join (lit " ") (List.map page_content docs) in
  let links := findall_urls all_text in
  if show_links o then filter_links links else links.

Definition render (o : Options) (links : list str) (output_summary : str)
  : M unit :=
  emit st_tabs ;;
  emit (st_summary output_summary) ;;
  emit (st_download_button output_summary) ;;
  (if show_links o && truthy links then
     emit st_links_open ;;
     for_each links (fun link => emit (st_link link)) ;;
     emit st_links_close
   else emit st_info_no_links) ;;
  let word_count := List.length (split output_summary) in
  let link_count := if truthy links then List.length links else 0 in
  emit (st_stats word_count link_count).

Definition summarize_and_show (w : World) (o : Options) (generic_url : str)
  : M unit :=
  try (docs <- (emit (ev_load_docs generic_url) ;; load_docs w generic_url) ;;
       if docs_truthy docs then
         let links := extract_links o (docs_list docs) in
         output_summary <-
           call (ev_chain_invoke (docs_list docs))
                (chain_invoke w (summary_style o) (summary_length o)
                              (docs_list docs)) ;;
         render o links output_summary
       else emit (st_error msg_no_content))
      (fun e => emit (st_error (msg_error e))).

Definition on_generate (w : World) (o : Options) (generic_url : str)
  : list event :=
  if negb (truthy (strip generic_url)) then [st_error msg_enter_url]
  else if negb (validators_url w generic_url) then [st_error msg_invalid_url]
  else trace (summarize_and_show w o generic_url).

(** The script from its top: the credential check, then the handler when
    the button was pressed. *)
Definition main (w : World) (groq_api_key : option str) (o : Options)
  (generic_url : str) (button : bool) : list event :=
  match groq_api_key with
  | None | Some [] => [st_error msg_no_api_key; st_stop]
  | Some (_ :: _) => if button then on_generate w o generic_url else []
  end.

(** ** The memoised acquirer ([@st.cache_data] on [load_docs], line 92) *)

Fixpoint str_eqb (a b : str) : bool :=
  match a, b with
  | [], [] => true
  | x :: a', y :: b' => N.eqb x y && str_eqb a' b'
  | _, _ => false
  end.

(** What the cache keeps of a call of the body that returned: the messages
    the body displayed, which a later hit displays again, and the value. *)
Record cached_call := mkCached {
  replayed : list message;
  returned : option (list Document)
}.

(** The cache of the process, keyed by the argument; newest entry first. *)
Definition cache := list (str * cached_call).

Fixpoint cache_lookup (url : str) (c : cache) : option cached_call :=
  match c with
  | [] => None
  | (u, r) :: c' => if str_eqb u url then Some r else cache_lookup url c'
  end.

Definition messages (t : list event) : list message :=
  flat_map (fun e => match e with st_error m => [m] | _ => [] end) t.

(** A call that raises is not cached. *)
Definition record_call (m : M (option (list Document)))
  : option cached_call :=
  match value m with
  | Returns docs => Some (mkCached (messages (trace m)) docs)
  | Raises _ => None
  end.

(** [load_docs] as the script calls it.  On a hit the body does not run:
    no loader and no subprocess is called, the recorded messages are
    displayed again and the recorded value is returned.  On a miss the
    body runs and, if it returned, the call is recorded. *)
Definition load_docs_cached (c : cache) (w : World) (url : str)
  : M (option (list Document)) * cache :=
  match cache_lookup url c with
  | Some r => ((List.map st_error (replayed r), Returns (returned r)), c)
  | None =>
      let m := load_docs w url in
      (m, match record_call m with
          | Some r => (url, r) :: c
          | None => c
          end)
  end.

(** The handler around an acquisition [acq] (the [else] branch of lines
    135-197), and a press of the button with the cache threaded through. *)
Definition summarize_and_show_from (acq : M (option (list Document)))
  (w : World) (o : Options) (generic_url : str) : M unit :=
  try (docs <- (emit (ev_load_docs generic_url) ;; acq) ;;
       if docs_truthy docs then
         let links := extract_links o (docs_list docs) in
         output_summary <-
           call (ev_chain_invoke (docs_list docs))
                (chain_invoke w (summary_style o) (summary_length o)
                              (docs_list docs)) ;;
         render o links output_summary
       else emit (st_error msg_no_content))
      (fun e => emit (st_error (msg_error e))).

Definition on_generate_cached (c : cache) (w : World) (o : Options)
  (generic_url : str) : list event * cache :=
  if negb (truthy (strip generic_url)) then ([st_error msg_enter_url], c)
  else if negb (validators_url w generic_url)
  then ([st_error msg_invalid_url], c)
  else
    let '(acq, c') := load_docs_cached c w generic_url in
    (trace (summarize_and_show_from acq w o generic_url), c').

(** The cache of a process after the calls [h] of the decorated function
    (oldest first, each with the world it ran in), the cache being empty at
    start. *)
Definition cache_step (c : cache) (call : World * str) : cache :=
  snd (load_docs_cached c (fst call) (snd call)).

Definition cache_after (h : list (World * str)) : cache :=
  fold_left cache_step h [].

(** The world of the first call on [url] in the history, if there was one,
    and the world whose collaborators produced the answer of a call on
    [url] made in the world [w] after the history [h]. *)
Fixpoint first_call (url : str) (h : list (World * str)) : option World :=
  match h with
  | [] => None
  | (w, u) :: h' => if str_eqb u url then Some w else first_call url h'
  end.

Definition answering_world (h : list (World * str)) (w : World) (url : str)
  : World :=
  match first_call url h with
  | Some w0 => w0
  | None => w
  end.

(** ** Prompt templates (main.py, lines 49-76) *)

(** The options of the style select box, as displayed. *)
Definition style_label (s : style) : str :=
  match s with
  | BulletPoints => lit "Bullet Points"
  | NumberedList => lit "Numbered List"
  | Paragraph => lit "Paragraph"
  end.

(** [str(n)] for an [int]: decimal digits, with a minus sign if negative. *)
Definition str_of_int (n : Z) : str :=
  lit (DecimalString.NilZero.string_of_int (Z.to_int n)).

Definition nl : str := [10%N].

Record PromptTemplate := mkPromptTemplate {
  template : str;
  input_variables : list str
}.

(** The two f-strings, after interpolation; [{{text}}] in an f-string is the
    text [{text}]. *)
Definition map_prompt (summary_style : style) : PromptTemplate :=
  mkPromptTemplate
    (nl ++ lit "Summarize the following content in a "
        ++ lower (style_label summary_style)
        ++ lit ". Highlight key points, important facts, or actionable items."
        ++ nl ++ nl
        ++ lit "Content:" ++ nl
        ++ lit "{text}" ++ nl ++ nl
        ++ lit "Summary:" ++ nl)
    [lit "text"].

Definition combine_prompt (summary_style : style) (summary_length : Z)
  : PromptTemplate :=
  mkPromptTemplate
    (nl ++ lit "You are an expert summarizer. Combine the following text summaries into a single, well-structured, readable summary."
        ++ nl
        ++ lit "- Use headings for main topics" ++ nl
        ++ lit "- Format as " ++ lower (style_label summary_style) ++ nl
        ++ lit "- Keep it concise and easy to read" ++ nl
        ++ lit "- Make it around " ++ str_of_int summary_length
        ++ lit " words" ++ nl
        ++ lit "- After the summary, list all **important URLs/links** found (ignore social media or irrelevant links)"
        ++ nl ++ nl
        ++ lit "Summaries:" ++ nl
        ++ lit "{text}" ++ nl ++ nl
        ++ lit "Final Structured Summary with Links:" ++ nl)
    [lit "text"].

(** ** Specification-side notions *)

(** [needle] occurs in [s] as a contiguous block. *)
Definition Infix (needle s : str) : Prop :=
  exists p q, s = p ++ needle ++ q.

(** [ys] is obtained from [xs] by deleting entries, the others keeping
    their order. *)
Inductive Subseq {A : Type} : list A -> list A -> Prop :=
| Subseq_nil : Subseq [] []
| Subseq_keep x ys xs : Subseq ys xs -> Subseq (x :: ys) (x :: xs)
| Subseq_drop x ys xs : Subseq ys xs -> Subseq ys (x :: xs).

Definition all_of (f : N -> bool) (s : str) : Prop := forallb f s = true.

(** Neither end of [s] is a character of the class [f]. *)
Definition clean_ends (f : N -> bool) (s : str) : Prop :=
  match s with
  | [] => True
  | c :: _ => f c = false /\ f (last s c) = false
  end.

(** The whitespace-delimited tokens of a text: the text is whitespace,
    then a token, then either nothing or text that starts with whitespace
    and is tokenized in the same way. *)
Inductive Tokenization : str -> list str -> Prop :=
| Tok_end ws : all_of is_space ws -> Tokenization ws []
| Tok_word ws t rest toks :
    all_of is_space ws ->
    t <> [] -> all_of non_space t ->
    match rest with [] => True | c :: _ => is_space c = true end ->
    Tokenization rest toks ->
    Tokenization (ws ++ t ++ rest) (t :: toks).

(** The classification rule in the specification's words: the host of the
    URL (the text after [://] up to the first [/], [?] or [#], without
    user information and port, compared case-insensitively) matches a
    video platform. *)
Fixpoint after_first (needle s : str) : option str :=
  if starts_with needle s then Some (skipn (List.length needle) s)
  else match s with
       | [] => None
       | _ :: s' => after_first needle s'
       end.

Definition spec_url_host (url : str) : str :=
  let rest := match after_first (lit "://") url with
              | Some r => r
              | None => url
              end in
  let authority :=
    take_while (fun c => negb (char_in (lit "/?#") c)) rest in
  let hostport := match after_first (lit "@") authority with
                  | Some r => r
                  | None => authority
                  end in
  take_while (fun c => negb (N.eqb c 58)) hostport.

Definition spec_is_video_host (url : str) : bool :=
  let host := lower (spec_url_host url) in
  str_in (lit "youtube.com") host || str_in (lit "youtu.be") host.

(** The punctuation class of [link.strip(".,)")]. *)
Definition punct : N -> bool := char_in (lit ".,)").

Definition keep (link : str) : bool := negb (is_social link).

(** Classes of events, to say what a run did and did not do. *)
Definition calls_load_docs (e : event) : bool :=
  match e with ev_load_docs _ => true | _ => false end.

Definition calls_video_loader (e : event) : bool :=
  match e with ev_YoutubeLoader _ | ev_subprocess_run _ => true | _ => false end.

Definition calls_generic_loader (e : event) : bool :=
  match e with ev_UnstructuredURLLoader _ => true | _ => false end.

Definition calls_chain (e : event) : bool :=
  match e with ev_chain_invoke _ => true | _ => false end.

(** Anything the three result tabs display. *)
Definition summary_output (e : event) : bool :=
  match e with
  | st_tabs | st_summary _ | st_download_button _ | st_links_open
  | st_link _ | st_links_close | st_info_no_links | st_stats _ _ => true
  | _ => false
  end.

(** The fallback produced no text: the subprocess call raised, or its
    captured output is empty or whitespace only. *)
Definition fallback_without_text (w : World) (url : str) : Prop :=
  match subprocess_run w (yt_dlp_argv url) with
  | Raises _ => True
  | Returns stdout => all_of is_space stdout
  end.

(** A world that accepts every URL and whose collaborators answer the same
    whatever they are asked; used for the concrete runs below. *)
Definition constant_world (yt : outcome (list Document)) (yt_dlp : outcome str)
  (web : outcome (list Document)) (summary : outcome str) : World :=
  mkWorld (fun _ => true) (fun _ => yt) (fun _ => yt_dlp) (fun _ => web)
          (fun _ _ _ => summary).

(** The events of the handler once [load_docs] has returned [docs]. *)
Definition after_load (w : World) (o : Options)
  (docs : option (list Document)) : list event :=
  if docs_truthy docs then
    ev_chain_invoke (docs_list docs) ::
    match chain_invoke w (summary_style o) (summary_length o) (docs_list docs)
    with
    | Returns output_summary =>
        trace (render o (extract_links o (docs_list docs)) output_summary)
    | Raises e => [st_error (msg_error e)]
    end
  else [st_error msg_no_content].

(** More classes of events. *)
Definition is_error (e : event) : bool :=
  match e with st_error _ => true | _ => false end.

Definition calls_subprocess (e : event) : bool :=
  match e with ev_subprocess_run _ => true | _ => false end.

(** The links a run displays, in order. *)
Definition shown_links (t : list event) : list str :=
  flat_map (fun e => match e with st_link link => [link] | _ => [] end) t.

(** How often a run performs an event of a class. *)
Definition count (g : event -> bool) (t : list event) : nat :=
  List.length (filter g t).

Definition has_scheme (link : str) : bool :=
  starts_with (lit "http://") link || starts_with (lit "https://") link.

(** The path chosen for the URL did not deliver: on the video path the
    primary loader raised and the fallback gave no text; on the generic
    path the loader raised. *)
Definition acquisition_failed (w : World) (url : str) : Prop :=
  if is_video_url url then
    (exists e, YoutubeLoader_load w url = Raises e) /\
    fallback_without_text w url
  else exists e, UnstructuredURLLoader_load w [url] = Raises e.

(** [if not groq_api_key] is false: the variable is set and not empty. *)
Definition key_present (groq_api_key : option str) : bool :=
  match groq_api_key with
  | Some (_ :: _) => true
  | _ => false
  end.

Definition is_brace (c : N) : bool := N.eqb c 123 || N.eqb c 125.

(** The five ways a press of the button can go. *)
Inductive run_kind (w : World) (o : Options) (url : str) : Prop :=
| run_blank :
    strip url = [] ->
    on_generate w o url = [st_error msg_enter_url] -> run_kind w o url
| run_invalid :
    strip url <> [] -> validators_url w url = false ->
    on_generate w o url = [st_error msg_invalid_url] -> run_kind w o url
| run_no_content docs :
    strip url <> [] -> validators_url w url = true ->
    value (load_docs w url) = Returns docs -> docs_truthy docs = false ->
    on_generate w o url
    = ev_load_docs url :: trace (load_docs w url)
      ++ [st_error msg_no_content] -> run_kind w o url
| run_chain_failed docs e :
    strip url <> [] -> validators_url w url = true ->
    value (load_docs w url) = Returns (Some docs) -> docs <> [] ->
    chain_invoke w (summary_style o) (summary_length o) docs = Raises e ->
    on_generate w o url
    = ev_load_docs url :: trace (load_docs w url)
      ++ [ev_chain_invoke docs; st_error (msg_error e)] -> run_kind w o url
| run_complete docs output_summary :
    strip url <> [] -> validators_url w url = true ->
    value (load_docs w url) = Returns (Some docs) -> docs <> [] ->
    chain_invoke w (summary_style o) (summary_length o) docs
      = Returns output_summary ->
    on_generate w o url
    = ev_load_docs url :: trace (load_docs w url) ++
      [ev_chain_invoke docs; st_tabs; st_summary output_summary;
       st_download_button output_summary] ++
      (if show_links o && truthy (extract_links o docs)
       then st_links_open :: List.map st_link (extract_links o docs)
            ++ [st_links_close]
       else [st_info_no_links]) ++
      [st_stats (List.length (split output_summary))
                (List.length (extract_links o docs))] -> run_kind w o url.

(** ** Facts about the string operations *)

Section StringFacts.

Lemma starts_with_spec (p s : str) :
  starts_with p s = true <-> exists q, s = p ++ q.
Proof.
  revert s. induction p as [|a p IH]; intros s; simpl.
  - split; [intros _; now exists s | reflexivity].
  - destruct s as [|b s].
    + split; [discriminate | intros [q H]; discriminate].
    + rewrite andb_true_iff, N.eqb_eq, IH. split.
      * intros [-> [q ->]]. now exists q.
      * intros [q H]. injection H as -> ->. split; [reflexivity | now exists q].
Qed.

Lemma str_in_spec (needle s : str) :
  str_in needle s = true <-> Infix needle s.
Proof.
  unfold Infix. induction s as [|c s IH].
  - simpl. rewrite orb_false_r, starts_with_spec. split.
    + intros [q H]. now exists [], q.
    + intros [p [q H]]. destruct p; simpl in H.
      * now exists q.
      * discriminate.
  - simpl. rewrite orb_true_iff, starts_with_spec, IH. split.
    + intros [[q H] | [p [q H]]].
      * now exists [], q.
      * exists (c :: p), q. simpl. now rewrite H.
    + intros [p [q H]]. destruct p as [|c' p]; simpl in H.
      * left. now exists q.
      * right. injection H as _ H. now exists p, q.
Qed.

Lemma Infix_trans (a b c : str) : Infix a b -> Infix b c -> Infix a c.
Proof.
  intros [p [q ->]] [p' [q' ->]].
  exists (p' ++ p), (q ++ q'). now rewrite <- !app_assoc.
Qed.

Lemma lower_app (a b : str) : lower (a ++ b) = lower a ++ lower b.
Proof. unfold lower. apply flat_map_app. Qed.

Lemma Infix_lower (a b : str) : Infix a b -> Infix (lower a) (lower b).
Proof.
  intros [p [q ->]]. exists (lower p), (lower q). now rewrite !lower_app.
Qed.

Variable f : N -> bool.

Lemma lstrip_by_split (s : str) :
  exists p, s = p ++ lstrip_by f s /\ all_of f p.
Proof.
  induction s as [|c s [p [H1 H2]]]; simpl.
  - now exists [].
  - destruct (f c) eqn:E.
    + exists (c :: p). split; [simpl; now f_equal|]. unfold all_of. simpl.
      now rewrite E.
    + now exists [].
Qed.

Lemma lstrip_by_head (s : str) :
  match lstrip_by f s with
  | [] => True
  | c :: _ => f c = false
  end.
Proof.
  induction s as [|c s IH]; simpl; [exact I|].
  destruct (f c) eqn:E; [exact IH | exact E].
Qed.

Lemma lstrip_by_fixed (s : str) :
  match s with [] => True | c :: _ => f c = false end ->
  lstrip_by f s = s.
Proof. destruct s as [|c s]; simpl; [reflexivity|]. now intros ->. Qed.

Lemma lstrip_by_idem (s : str) : lstrip_by f (lstrip_by f s) = lstrip_by f s.
Proof. apply lstrip_by_fixed, lstrip_by_head. Qed.

Lemma all_of_rev (s : str) : all_of f s -> all_of f (rev s).
Proof.
  unfold all_of. rewrite !forallb_forall. intros H x Hx.
  apply H. now apply in_rev.
Qed.

Lemma rstrip_by_split (s : str) :
  exists q, s = rstrip_by f s ++ q /\ all_of f q.
Proof.
  unfold rstrip_by. destruct (lstrip_by_split (rev s)) as [p [H1 H2]].
  exists (rev p). split; [|now apply all_of_rev].
  rewrite <- rev_app_distr, <- H1. now rewrite rev_involutive.
Qed.

Lemma rstrip_by_idem (s : str) : rstrip_by f (rstrip_by f s) = rstrip_by f s.
Proof. unfold rstrip_by. now rewrite rev_involutive, lstrip_by_idem. Qed.

Lemma rstrip_by_last (s : str) (d : N) :
  rstrip_by f s <> [] -> f (last (rstrip_by f s) d) = false.
Proof.
  unfold rstrip_by. pose proof (lstrip_by_head (rev s)) as H.
  destruct (lstrip_by f (rev s)) as [|c t]; [now intros []|].
  intros _. simpl. now rewrite last_last.
Qed.

(** [rstrip] leaves the first character in place when anything is left. *)
Lemma rstrip_by_keeps_head (s : str) :
  match s with [] => True | c :: _ => f c = false end ->
  match rstrip_by f s with [] => True | c :: _ => f c = false end.
Proof.
  intros H. destruct (rstrip_by_split s) as [q [H1 _]].
  destruct (rstrip_by f s) as [|c t]; [exact I|].
  rewrite H1 in H. exact H.
Qed.

Lemma strip_by_lstrip_fixed (s : str) :
  lstrip_by f (strip_by f s) = strip_by f s.
Proof.
  unfold strip_by. apply lstrip_by_fixed, rstrip_by_keeps_head, lstrip_by_head.
Qed.

Lemma strip_by_idem (s : str) : strip_by f (strip_by f s) = strip_by f s.
Proof.
  unfold strip_by at 1. rewrite strip_by_lstrip_fixed.
  unfold strip_by. apply rstrip_by_idem.
Qed.

(** What [strip] does and nothing else: it cuts a run of class characters
    off each end and leaves ends that are not in the class. *)
Lemma strip_by_spec (s : str) :
  exists p q, s = p ++ strip_by f s ++ q /\ all_of f p /\ all_of f q /\
              clean_ends f (strip_by f s).
Proof.
  destruct (lstrip_by_split s) as [p [H1 H2]].
  destruct (rstrip_by_split (lstrip_by f s)) as [q [H3 H4]].
  exists p, q. fold (strip_by f s) in H3.
  split; [now rewrite <- H3|]. split; [exact H2|]. split; [exact H4|].
  pose proof (rstrip_by_keeps_head _ (lstrip_by_head s)) as Hh.
  fold (strip_by f s) in Hh.
  pose proof (@rstrip_by_last (lstrip_by f s)) as Hl.
  fold (strip_by f s) in Hl.
  unfold clean_ends. destruct (strip_by f s) as [|c t]; [exact I|].
  split; [exact Hh | apply Hl; discriminate].
Qed.

Lemma strip_by_Infix (s : str) : Infix (strip_by f s) s.
Proof. destruct (strip_by_spec s) as [p [q [H _]]]. now exists p, q. Qed.

Lemma strip_by_no_leading (s : str) :
  match s with [] => True | c :: _ => f c = false end ->
  strip_by f s = rstrip_by f s.
Proof. intros H. unfold strip_by. now rewrite lstrip_by_fixed. Qed.

Lemma lstrip_by_nil_iff (s : str) : lstrip_by f s = [] <-> all_of f s.
Proof.
  unfold all_of. induction s as [|c s IH]; simpl; [tauto|].
  destruct (f c); simpl; [exact IH|]. split; discriminate.
Qed.

Lemma strip_by_nil_iff (s : str) : strip_by f s = [] <-> all_of f s.
Proof.
  split.
  - intros H. destruct (strip_by_spec s) as [p [q [H1 [H2 [H3 _]]]]].
    rewrite H in H1. simpl in H1. rewrite H1. unfold all_of in *.
    rewrite forallb_app. now rewrite H2, H3.
  - intros H. unfold strip_by. apply lstrip_by_nil_iff in H. now rewrite H.
Qed.

End StringFacts.

(** ** The link filter *)

Section FilterLinks.

Lemma filter_links_acc (links filtered : list str) :
  fold_left filter_step links filtered
  = filtered ++ List.map (strip_chars (lit ".,)")) (filter keep links).
Proof.
  revert filtered. induction links as [|link links IH]; intros filtered; simpl.
  - now rewrite app_nil_r.
  - rewrite IH. unfold filter_step, keep.
    destruct (is_social link); simpl; [reflexivity|].
    now rewrite <- app_assoc.
Qed.

(** The loop as a comprehension. *)
Lemma filter_links_map_filter (links : list str) :
  filter_links links
  = List.map (strip_chars (lit ".,)")) (filter keep links).
Proof. unfold filter_links. now rewrite filter_links_acc. Qed.

Lemma filter_links_app (xs ys : list str) :
  filter_links (xs ++ ys) = filter_links xs ++ filter_links ys.
Proof. now rewrite !filter_links_map_filter, filter_app, map_app. Qed.

Lemma filter_links_cons (x : str) (xs : list str) :
  filter_links (x :: xs)
  = (if is_social x then [] else [strip_chars (lit ".,)") x])
    ++ filter_links xs.
Proof.
  rewrite !filter_links_map_filter. simpl. unfold keep.
  now destruct (is_social x).
Qed.

Lemma is_social_Infix (a b : str) :
  Infix a b -> is_social a = true -> is_social b = true.
Proof.
  unfold is_social. rewrite !existsb_exists.
  intros Hab [social [Hin H]]. exists social. split; [exact Hin|].
  apply str_in_spec. apply str_in_spec in H.
  eapply Infix_trans; [exact H | now apply Infix_lower].
Qed.

Lemma keep_strip (link : str) :
  keep link = true -> keep (strip_chars (lit ".,)") link) = true.
Proof.
  unfold keep. rewrite !negb_true_iff. intros H.
  destruct (is_social (strip_chars _ link)) eqn:E; [|reflexivity].
  rewrite <- H. symmetry.
  eapply is_social_Infix; [|exact E]. apply strip_by_Infix.
Qed.

Lemma filter_Subseq {A} (g : A -> bool) (xs : list A) :
  Subseq (filter g xs) xs.
Proof.
  induction xs as [|x xs IH]; simpl; [constructor|].
  destruct (g x); now constructor.
Qed.

Lemma count_occ_map_filter (x : str) (xs : list str) :
  keep x = true ->
  count_occ (list_eq_dec N.eq_dec) xs x
  <= count_occ (list_eq_dec N.eq_dec)
       (List.map (strip_chars (lit ".,)")) (filter keep xs))
       (strip_chars (lit ".,)") x).
Proof.
  intros Hx. induction xs as [|y xs IH]; simpl; [lia|].
  destruct (list_eq_dec N.eq_dec y x) as [->|Hne].
  - rewrite Hx. simpl.
    destruct (list_eq_dec N.eq_dec _ _) as [_|Hc]; [lia | now elim Hc].
  - destruct (keep y); simpl; [|exact IH].
    destruct (list_eq_dec N.eq_dec _ _); lia.
Qed.

End FilterLinks.

(** Every regex match begins with the scheme, so it has no leading
    punctuation for [strip] to remove. *)
Section Findall.

Lemma starts_with_firstn (p s : str) (n : nat) :
  List.length p <= n -> starts_with p s = true ->
  starts_with p (firstn n s) = true.
Proof.
  rewrite !starts_with_spec. intros Hn [q ->].
  rewrite firstn_app. replace (firstn n p) with p.
  - now eexists.
  - symmetry. now apply firstn_all2.
Qed.

Lemma match_tail_ge (s : str) (n : nat) : match_tail s = Some n -> 4 <= n.
Proof.
  unfold match_tail. destruct (starts_with _ s); [|discriminate].
  destruct (List.length _); [discriminate|]. intros [= <-]. lia.
Qed.

Lemma match_url_http (s : str) (n : nat) :
  match_url s = Some n -> starts_with (lit "http") s = true /\ 8 <= n.
Proof.
  unfold match_url. destruct (starts_with (lit "http") s); [|discriminate].
  intros H. split; [reflexivity|].
  destruct (skipn 4 s) as [|c s2] eqn:E.
  - discriminate.
  - destruct (N.eqb c 115).
    + destruct (match_tail s2) as [m|] eqn:E2; simpl in H.
      * injection H as <-. apply match_tail_ge in E2. lia.
      * destruct (match_tail (c :: s2)) as [m|] eqn:E3; [|discriminate].
        simpl in H. injection H as <-. apply match_tail_ge in E3. lia.
    + destruct (match_tail (c :: s2)) as [m|] eqn:E3; [|discriminate].
      simpl in H. injection H as <-. apply match_tail_ge in E3. lia.
Qed.

Lemma findall_from_http (s : str) (skip : nat) :
  Forall (fun link => starts_with (lit "http") link = true)
         (findall_from skip s).
Proof.
  revert skip. induction s as [|c s IH]; intros skip; cbn [findall_from];
    [constructor|].
  destruct skip as [|k]; [|apply IH].
  destruct (match_url (c :: s)) as [n|] eqn:E; [|apply IH].
  constructor; [|apply IH].
  apply match_url_http in E. destruct E as [E1 E2].
  apply (@starts_with_firstn (lit "http")); [cbn; lia | exact E1].
Qed.

Lemma http_no_leading_punct (link : str) :
  starts_with (lit "http") link = true ->
  strip_chars (lit ".,)") link = rstrip_chars (lit ".,)") link.
Proof.
  intros H. apply strip_by_no_leading.
  apply starts_with_spec in H. destruct H as [q ->]. reflexivity.
Qed.

End Findall.

(** ** Properties of [filter_links] *)

(** The example of the specification. *)
Example filter_links_spec_example :
  filter_links [lit "https://example.com/page."; lit "https://facebook.com/x";
                lit "https://good.org/y)"]
  = [lit "https://example.com/page"; lit "https://good.org/y"].
Proof. vm_compute. reflexivity. Qed.

(** A denylisted link is dropped whatever its letter case, also when the
    upper-case letter is the Kelvin sign. *)
Example filter_links_case_insensitive :
  filter_links [lit "https://FaceBook.COM/x"; lit "http://faceboo" ++ [0x212A%N] ++ lit ".com"]
  = [].
Proof. vm_compute. reflexivity. Qed.

(** C3: for every input sequence, the lowercase form of every string in the
    output of [filter_links] contains none of the five denylisted
    substrings. *)
Theorem filter_links_output_not_social (links : list str) :
  Forall (fun out =>
            Forall (fun social => ~ Infix social (lower out)) socials)
         (filter_links links).
Proof.
  rewrite filter_links_map_filter. apply Forall_forall. intros out Hin.
  apply in_map_iff in Hin. destruct Hin as [link [<- Hin]].
  apply filter_In in Hin. destruct Hin as [_ Hk].
  apply keep_strip in Hk. unfold keep in Hk. apply negb_true_iff in Hk.
  apply Forall_forall. intros social Hs Hinf.
  apply str_in_spec in Hinf.
  assert (is_social (strip_chars (lit ".,)") link) = true) as Habs.
  { unfold is_social. apply existsb_exists. now exists social. }
  rewrite Hk in Habs. discriminate.
Qed.

(** C4, as the code has it: each retained entry is the corresponding input
    string with the characters [.], [,], [)] cut off BOTH of its ends and
    nothing else changed; an input that does not begin with one of the
    three characters only loses trailing ones; the example of the
    specification holds. *)
Theorem filter_links_strips_both_ends (links : list str) :
  filter_links links
  = List.map (strip_chars (lit ".,)")) (filter keep links)
  /\ Forall (fun link =>
               exists p q,
                 link = p ++ strip_chars (lit ".,)") link ++ q /\
                 all_of punct p /\ all_of punct q /\
                 clean_ends punct (strip_chars (lit ".,)") link))
            links
  /\ (Forall (fun link => match link with
                          | [] => True
                          | c :: _ => punct c = false
                          end) links ->
      filter_links links
      = List.map (rstrip_chars (lit ".,)")) (filter keep links))
  /\ filter_links [lit "https://example.com/page.";
                   lit "https://facebook.com/x"; lit "https://good.org/y)"]
     = [lit "https://example.com/page"; lit "https://good.org/y"].
Proof.
  split; [apply filter_links_map_filter|]. split.
  { apply Forall_forall. intros link _. apply strip_by_spec. }
  split; [|exact filter_links_spec_example].
  intros H. rewrite filter_links_map_filter. apply map_ext_in.
  intros link Hin. apply filter_In in Hin. destruct Hin as [Hin _].
  rewrite Forall_forall in H. apply strip_by_no_leading. now apply H.
Qed.

Lemma filter_links_strips_both_ends_witness :
  Forall (fun link => match link with
                      | [] => True
                      | c :: _ => punct c = false
                      end)
         [lit "https://example.com/page."; lit "https://good.org/y)"]
  /\ filter_links [lit "https://example.com/page."; lit "https://good.org/y)"]
     = List.map (rstrip_chars (lit ".,)"))
         (filter keep [lit "https://example.com/page.";
                       lit "https://good.org/y)"]).
Proof.
  assert (Forall (fun link => match link with
                      | [] => True
                      | c :: _ => punct c = false
                      end)
         [lit "https://example.com/page."; lit "https://good.org/y)"]) as H.
  { repeat constructor. }
  split; [exact H|].
  exact (proj1 (proj2 (proj2 (filter_links_strips_both_ends
            [lit "https://example.com/page."; lit "https://good.org/y)"]))) H).
Defined.

(** C4 as stated fails: a retained entry that begins with one of the three
    characters loses it, which removing trailing characters alone would
    not do. *)
Lemma filter_links_strips_leading_too :
  filter_links [lit ").see.org/x."] = [lit "see.org/x"]
  /\ rstrip_chars (lit ".,)") (lit ").see.org/x.") = lit ").see.org/x"
  /\ filter_links [lit ").see.org/x."]
     <> [rstrip_chars (lit ".,)") (lit ").see.org/x.")].
Proof.
  split; [vm_compute; reflexivity|].
  split; [vm_compute; reflexivity|].
  vm_compute. discriminate.
Qed.

(** On the links the handler extracts with the regex, which all begin with
    [http], the filter removes trailing punctuation only. *)
Lemma filter_links_on_extracted (text : str) :
  filter_links (findall_urls text)
  = List.map (rstrip_chars (lit ".,)")) (filter keep (findall_urls text)).
Proof.
  rewrite filter_links_map_filter. apply map_ext_in.
  intros link Hin. apply filter_In in Hin. destruct Hin as [Hin _].
  apply http_no_leading_punct.
  pose proof (findall_from_http text 0) as H. rewrite Forall_forall in H.
  now apply H.
Qed.

(** C5: [filter_links] keeps the retained entries in their input order (the
    output is the image, entry by entry, of a subsequence of the input) and
    does not deduplicate: a string that is not denylisted occurs in the
    output, in its stripped form, at least as often as in the input, and the
    output has one entry per non-denylisted input entry. *)
Theorem filter_links_order_and_duplicates (links : list str) :
  (exists kept,
      Subseq kept links /\
      Forall (fun link => is_social link = false) kept /\
      filter_links links = List.map (strip_chars (lit ".,)")) kept)
  /\ (forall x, is_social x = false ->
        count_occ (list_eq_dec N.eq_dec) links x
        <= count_occ (list_eq_dec N.eq_dec) (filter_links links)
             (strip_chars (lit ".,)") x))
  /\ List.length (filter_links links)
     = List.length (filter (fun link => negb (is_social link)) links).
Proof.
  split; [|split].
  - exists (filter keep links). split; [apply filter_Subseq|]. split.
    + apply Forall_forall. intros link Hin. apply filter_In in Hin.
      destruct Hin as [_ Hk]. unfold keep in Hk. now apply negb_true_iff.
    + apply filter_links_map_filter.
  - intros x Hx. rewrite filter_links_map_filter.
    apply count_occ_map_filter. unfold keep. now rewrite Hx.
  - rewrite filter_links_map_filter. apply length_map.
Qed.

Lemma filter_links_order_and_duplicates_witness :
  is_social (lit "https://a.org/b") = false
  /\ 2 <= count_occ (list_eq_dec N.eq_dec)
            (filter_links [lit "https://a.org/b"; lit "https://twitter.com/t";
                           lit "https://a.org/b"])
            (lit "https://a.org/b").
Proof.
  assert (is_social (lit "https://a.org/b") = false) as H
    by (vm_compute; reflexivity).
  split; [exact H|].
  exact (proj1 (proj2 (filter_links_order_and_duplicates
           [lit "https://a.org/b"; lit "https://twitter.com/t";
            lit "https://a.org/b"])) (lit "https://a.org/b") H).
Defined.

(** C9: [filter_links] is idempotent. *)
Theorem filter_links_idempotent (links : list str) :
  filter_links (filter_links links) = filter_links links.
Proof.
  induction links as [|link links IH]; [reflexivity|].
  rewrite filter_links_cons. rewrite filter_links_app, IH. f_equal.
  destruct (is_social link) eqn:E; [reflexivity|].
  rewrite filter_links_cons.
  assert (keep (strip_chars (lit ".,)") link) = true) as Hk.
  { apply keep_strip. unfold keep. now rewrite E. }
  unfold keep in Hk. apply negb_true_iff in Hk. rewrite Hk.
  unfold strip_chars. rewrite strip_by_idem. reflexivity.
Qed.

(** ** Tokens: [split] computes the whitespace-delimited tokens *)

Section Tokens.

Lemma split_from_spaces (ws r : str) :
  all_of is_space ws -> split_from [] (ws ++ r) = split_from [] r.
Proof.
  unfold all_of. induction ws as [|c ws IH]; simpl; [reflexivity|].
  intros H. apply andb_true_iff in H. destruct H as [Hc Hws].
  rewrite Hc. simpl. now apply IH.
Qed.

Lemma split_from_word (t r cur : str) :
  all_of non_space t -> split_from cur (t ++ r) = split_from (rev t ++ cur) r.
Proof.
  unfold all_of. revert cur. induction t as [|c t IH]; intros cur; simpl;
    [reflexivity|].
  intros H. apply andb_true_iff in H. destruct H as [Hc Ht].
  unfold non_space in Hc. apply negb_true_iff in Hc. rewrite Hc.
  rewrite IH by exact Ht. now rewrite <- app_assoc.
Qed.

Lemma split_from_boundary (cur rest : str) :
  match rest with [] => True | c :: _ => is_space c = true end ->
  split_from cur rest = flush cur ++ split rest.
Proof.
  unfold split. destruct rest as [|c r]; simpl.
  - intros _. now rewrite app_nil_r.
  - intros ->. reflexivity.
Qed.

Lemma Tokenization_split (s : str) (toks : list str) :
  Tokenization s toks -> split s = toks.
Proof.
  induction 1 as [ws Hws | ws t rest toks Hws Hne Ht Hb _ IH].
  - unfold split. rewrite <- (app_nil_r ws).
    now rewrite split_from_spaces.
  - unfold split. rewrite split_from_spaces by exact Hws.
    rewrite split_from_word by exact Ht.
    rewrite split_from_boundary by exact Hb.
    rewrite app_nil_r, IH.
    destruct (rev t) as [|c u] eqn:E.
    + apply (f_equal (@rev N)) in E. rewrite rev_involutive in E.
      now elim Hne.
    + change (flush (c :: u)) with [rev (c :: u)].
      rewrite <- E, rev_involutive. reflexivity.
Qed.

Lemma Tokenization_exists (s : str) : exists toks, Tokenization s toks.
Proof.
  remember (List.length s) as n eqn:Hn. revert s Hn.
  induction n as [n IH] using lt_wf_ind. intros s Hn.
  destruct (lstrip_by_split is_space s) as [ws [Hs Hws]].
  pose proof (lstrip_by_head is_space s) as Hhead.
  destruct (lstrip_by is_space s) as [|c s1] eqn:E.
  - exists []. rewrite Hs, app_nil_r. now constructor.
  - destruct (lstrip_by_split non_space (c :: s1)) as [t [Ht1 Ht2]].
    pose proof (lstrip_by_head non_space (c :: s1)) as Hb.
    set (rest := lstrip_by non_space (c :: s1)) in *.
    assert (t <> []) as Hne.
    { intros ->. simpl in Ht1. rewrite <- Ht1 in Hb.
      unfold non_space in Hb. rewrite Hhead in Hb. discriminate. }
    destruct (IH (List.length rest)) with (s := rest) as [toks Htoks];
      [|reflexivity|].
    { rewrite Hn, Hs, Ht1, !length_app.
      destruct t; [now elim Hne | simpl; lia]. }
    exists (t :: toks). rewrite Hs, Ht1. constructor; try assumption.
    destruct rest as [|c' r]; [exact I|].
    unfold non_space in Hb. now apply negb_false_iff in Hb.
Qed.

(** [split] returns the tokenization, and there is no other. *)
Lemma split_Tokenization (s : str) : Tokenization s (split s).
Proof.
  destruct (Tokenization_exists s) as [toks H].
  now rewrite (Tokenization_split H).
Qed.

End Tokens.

(** ** The acquirer and the handler, case by case *)

Section Handler.

Variable w : World.

Lemma load_docs_cases (url : str) :
  load_docs w url =
  if is_video_url url then
    match YoutubeLoader_load w url with
    | Returns docs => ([ev_YoutubeLoader url], Returns (Some docs))
    | Raises _ =>
        match subprocess_run w (yt_dlp_argv url) with
        | Returns stdout =>
            ([ev_YoutubeLoader url; ev_subprocess_run (yt_dlp_argv url)],
             Returns (if truthy (strip stdout)
                      then Some [mkDocument (strip stdout) [(lit "source", url)]]
                      else None))
        | Raises yt_err =>
            ([ev_YoutubeLoader url; ev_subprocess_run (yt_dlp_argv url);
              st_error (msg_youtube_failed yt_err)], Returns None)
        end
    end
  else
    match UnstructuredURLLoader_load w [url] with
    | Returns docs => ([ev_UnstructuredURLLoader [url]], Returns (Some docs))
    | Raises web_err =>
        ([ev_UnstructuredURLLoader [url];
          st_error (msg_website_failed web_err)], Returns None)
    end.
Proof.
  unfold load_docs. destruct (is_video_url url).
  - destruct (YoutubeLoader_load w url); [reflexivity|].
    destruct (subprocess_run w (yt_dlp_argv url)) as [stdout|e];
      [|reflexivity].
    cbn. destruct (truthy (strip stdout)); reflexivity.
  - destruct (UnstructuredURLLoader_load w [url]); reflexivity.
Qed.

(** [load_docs] handles every exception of its collaborators itself. *)
Lemma load_docs_returns (url : str) :
  exists docs, value (load_docs w url) = Returns docs.
Proof.
  rewrite load_docs_cases.
  destruct (is_video_url url).
  - destruct (YoutubeLoader_load w url); [now eexists|].
    destruct (subprocess_run w (yt_dlp_argv url)); now eexists.
  - destruct (UnstructuredURLLoader_load w [url]); now eexists.
Qed.

(** Nothing is displayed by [load_docs] but its own error messages. *)
Lemma load_docs_no_output (url : str) :
  existsb summary_output (trace (load_docs w url)) = false
  /\ existsb calls_chain (trace (load_docs w url)) = false.
Proof.
  rewrite load_docs_cases.
  destruct (is_video_url url).
  - destruct (YoutubeLoader_load w url); [now split|].
    destruct (subprocess_run w (yt_dlp_argv url)); now split.
  - destruct (UnstructuredURLLoader_load w [url]); now split.
Qed.

Lemma for_each_links (links : list str) :
  for_each links (fun link => emit (st_link link))
  = (List.map st_link links, Returns tt).
Proof.
  induction links as [|l links IH]; [reflexivity|].
  simpl. rewrite IH. reflexivity.
Qed.

Lemma truthy_length {A} (l : list A) :
  (if truthy l then List.length l else 0) = List.length l.
Proof. now destruct l. Qed.

Lemma render_cases (o : Options) (links : list str) (output_summary : str) :
  render o links output_summary =
  ([st_tabs; st_summary output_summary; st_download_button output_summary]
   ++ (if show_links o && truthy links
       then st_links_open :: List.map st_link links ++ [st_links_close]
       else [st_info_no_links])
   ++ [st_stats (List.length (split output_summary)) (List.length links)],
   Returns tt).
Proof.
  unfold render. rewrite truthy_length.
  destruct (show_links o && truthy links).
  - cbn. rewrite for_each_links. cbn. rewrite <- app_assoc. reflexivity.
  - reflexivity.
Qed.

Lemma summarize_and_show_cases (o : Options) (url : str) :
  trace (summarize_and_show w o url) =
  ev_load_docs url :: trace (load_docs w url) ++
  match value (load_docs w url) with
  | Returns docs => after_load w o docs
  | Raises e => [st_error (msg_error e)]
  end.
Proof.
  unfold summarize_and_show, after_load.
  destruct (load_docs w url) as [t [docs|e]]; cbn -[render extract_links];
    [|reflexivity].
  destruct (docs_truthy docs); cbn -[render extract_links]; [|reflexivity].
  destruct (chain_invoke _ _ _ _) as [s|e]; cbn -[render extract_links].
  - rewrite render_cases. cbn -[extract_links].
    rewrite <- ?app_assoc. reflexivity.
  - rewrite <- ?app_assoc. reflexivity.
Qed.

End Handler.

Section HandlerFacts.

Variable w : World.
Variable o : Options.

Lemma on_generate_valid (url : str) :
  strip url <> [] -> validators_url w url = true ->
  on_generate w o url
  = ev_load_docs url :: trace (load_docs w url) ++
    match value (load_docs w url) with
    | Returns docs => after_load w o docs
    | Raises e => [st_error (msg_error e)]
    end.
Proof.
  intros Hs Hv. unfold on_generate. rewrite Hv.
  destruct (strip url); [now elim Hs|]. cbn [truthy negb].
  apply summarize_and_show_cases.
Qed.

Lemma is_video_url_spec (url : str) :
  is_video_url url = true
  <-> Infix (lit "youtube.com") url \/ Infix (lit "youtu.be") url.
Proof.
  unfold is_video_url. now rewrite orb_true_iff, !str_in_spec.
Qed.

Lemma Infix_not_blank (needle url : str) :
  forallb is_space needle = false -> Infix needle url -> strip url <> [].
Proof.
  intros Hn [p [q ->]] H. unfold strip in H. apply strip_by_nil_iff in H.
  unfold all_of in H. rewrite !forallb_app, Hn in H.
  rewrite andb_false_r in H. discriminate.
Qed.

Lemma video_url_not_blank (url : str) :
  is_video_url url = true -> strip url <> [].
Proof.
  intros H. apply is_video_url_spec in H.
  destruct H as [H|H]; revert H; apply Infix_not_blank; reflexivity.
Qed.

Lemma not_in_class (g : event -> bool) (t : list event) (x : event) :
  existsb g t = false -> g x = true -> ~ In x t.
Proof.
  intros H Hx Hin.
  assert (existsb g t = true) as Habs by (apply existsb_exists; now exists x).
  rewrite H in Habs. discriminate.
Qed.

Lemma links_panel_no_stats (c : bool) (links : list str) (wc lc : nat) :
  ~ In (st_stats wc lc)
       (if c then st_links_open :: List.map st_link links ++ [st_links_close]
        else [st_info_no_links]).
Proof.
  destruct c; simpl.
  - intros [H|H]; [discriminate|]. apply in_app_or in H.
    destruct H as [H|[H|[]]]; [|discriminate].
    apply in_map_iff in H. destruct H as [l [H _]]. discriminate.
  - intros [H|[]]. discriminate.
Qed.

(** Whenever the statistics are displayed, the run was a complete one:
    documents were acquired, the chain returned a summary, and the two
    numbers are the token count of that summary and the length of the
    link list. *)
Lemma on_generate_stats (url : str) (wc lc : nat) :
  In (st_stats wc lc) (on_generate w o url) ->
  exists docs output_summary,
    value (load_docs w url) = Returns (Some docs) /\
    chain_invoke w (summary_style o) (summary_length o) docs
      = Returns output_summary /\
    on_generate w o url
    = ev_load_docs url :: trace (load_docs w url) ++
      [ev_chain_invoke docs; st_tabs; st_summary output_summary;
       st_download_button output_summary] ++
      (if show_links o && truthy (extract_links o docs)
       then st_links_open :: List.map st_link (extract_links o docs)
            ++ [st_links_close]
       else [st_info_no_links]) ++
      [st_stats (List.length (split output_summary))
                (List.length (extract_links o docs))] /\
    wc = List.length (split output_summary) /\
    lc = List.length (extract_links o docs).
Proof.
  intros Hin.
  assert (strip url <> [] /\ validators_url w url = true) as [Hs Hv].
  { unfold on_generate in Hin. destruct (strip url) as [|c s].
    - cbn in Hin. destruct Hin as [H|[]]. discriminate.
    - destruct (validators_url w url); [now split|].
      cbn in Hin. destruct Hin as [H|[]]. discriminate. }
  rewrite (on_generate_valid url Hs Hv) in *.
  destruct (load_docs_returns w url) as [docs Hd]. rewrite Hd in *.
  destruct Hin as [H|Hin]; [discriminate|].
  apply in_app_or in Hin. destruct Hin as [Hin|Hin].
  { exfalso. revert Hin. apply not_in_class with (g := summary_output).
    - apply load_docs_no_output.
    - reflexivity. }
  unfold after_load in *. destruct docs as [docs|]; cbn [docs_truthy] in *.
  2:{ destruct Hin as [H|[]]. discriminate. }
  destruct (truthy docs).
  2:{ destruct Hin as [H|[]]. discriminate. }
  cbn [docs_list] in *.
  destruct (chain_invoke w (summary_style o) (summary_length o) docs)
    as [s|e] eqn:Hc.
  2:{ destruct Hin as [H|[H|[]]]; discriminate. }
  rewrite render_cases in *. cbn [trace fst] in *.
  exists docs, s. split; [reflexivity|]. split; [exact Hc|].
  split; [reflexivity|].
  cbn [In app] in Hin.
  destruct Hin as [H|[H|[H|[H|Hin]]]]; try discriminate.
  apply in_app_or in Hin. destruct Hin as [Hin|Hin].
  - exfalso. revert Hin. apply links_panel_no_stats.
  - destruct Hin as [H|[]]. injection H as <- <-. now split.
Qed.


(** An acquisition that yields nothing ([None] or an empty list) ends with
    the "No content found" error, whatever path was taken. *)
Lemma no_documents_no_summary (url : str) (docs : option (list Document)) :
  strip url <> [] -> validators_url w url = true ->
  value (load_docs w url) = Returns docs -> docs_truthy docs = false ->
  on_generate w o url
  = ev_load_docs url :: trace (load_docs w url) ++ [st_error msg_no_content]
  /\ existsb summary_output (on_generate w o url) = false.
Proof.
  intros Hs Hv Hd Ht.
  rewrite (on_generate_valid url Hs Hv), Hd. unfold after_load. rewrite Ht.
  split; [reflexivity|].
  cbn [existsb summary_output orb]. rewrite existsb_app.
  rewrite (proj1 (load_docs_no_output w url)). reflexivity.
Qed.

(** The script runs the handler when the credential is set and the button
    was pressed, and only then. *)
Lemma main_runs_handler (key url : str) (button : bool) :
  key <> [] ->
  main w (Some key) o url button
  = if button then on_generate w o url else [].
Proof. destruct key; [now intros [] | reflexivity]. Qed.

Lemma main_without_credential (url : str) (button : bool) :
  main w None o url button = [st_error msg_no_api_key; st_stop]
  /\ main w (Some []) o url button = [st_error msg_no_api_key; st_stop].
Proof. now split. Qed.

End HandlerFacts.

(** ** The memoised acquirer: hits, misses and where an entry comes from *)

Section Memo.

Lemma str_eqb_eq (a b : str) : str_eqb a b = true <-> a = b.
Proof.
  revert b. induction a as [|x a IH]; intros [|y b]; simpl;
    try (split; [discriminate | discriminate]); [tauto|].
  rewrite andb_true_iff, N.eqb_eq, IH. split.
  - now intros [-> ->].
  - intros [= -> ->]. now split.
Qed.

Lemma load_docs_cached_hit (c : cache) (w : World) (url : str)
  (r : cached_call) :
  cache_lookup url c = Some r ->
  load_docs_cached c w url
  = ((List.map st_error (replayed r), Returns (returned r)), c).
Proof. intros H. unfold load_docs_cached. now rewrite H. Qed.

Lemma load_docs_cached_miss (c : cache) (w : World) (url : str) :
  cache_lookup url c = None ->
  fst (load_docs_cached c w url) = load_docs w url.
Proof. intros H. unfold load_docs_cached. now rewrite H. Qed.

Lemma record_call_load_docs (w : World) (url : str) :
  exists docs,
    value (load_docs w url) = Returns docs /\
    record_call (load_docs w url)
    = Some (mkCached (messages (trace (load_docs w url))) docs).
Proof.
  destruct (load_docs_returns w url) as [docs H]. exists docs.
  split; [exact H|]. unfold record_call. now rewrite H.
Qed.

Lemma load_docs_cached_miss_cache (c : cache) (w : World) (url : str) :
  cache_lookup url c = None ->
  exists docs,
    value (load_docs w url) = Returns docs /\
    snd (load_docs_cached c w url)
    = (url, mkCached (messages (trace (load_docs w url))) docs) :: c.
Proof.
  intros H. destruct (record_call_load_docs w url) as [docs [Hv Hr]].
  exists docs. split; [exact Hv|].
  unfold load_docs_cached. rewrite H. cbn [snd]. now rewrite Hr.
Qed.

Lemma cache_lookup_here (c : cache) (url : str) (r : cached_call) :
  cache_lookup url ((url, r) :: c) = Some r.
Proof.
  cbn [cache_lookup]. now rewrite (proj2 (str_eqb_eq url url) eq_refl).
Qed.

Lemma cache_lookup_fold (url : str) (h : list (World * str)) (c : cache) :
  cache_lookup url (fold_left cache_step h c)
  = match cache_lookup url c with
    | Some r => Some r
    | None =>
        match first_call url h with
        | Some w0 => record_call (load_docs w0 url)
        | None => None
        end
    end.
Proof.
  revert c. induction h as [|[w u] h IH]; intros c; cbn [fold_left first_call].
  - now destruct (cache_lookup url c).
  - rewrite IH. unfold cache_step. cbn [fst snd].
    destruct (cache_lookup u c) as [r0|] eqn:E.
    + rewrite (load_docs_cached_hit _ w _ E). cbn [snd].
      destruct (str_eqb u url) eqn:Eu; [|reflexivity].
      apply str_eqb_eq in Eu. subst u. now rewrite E.
    + destruct (load_docs_cached_miss_cache c w u E) as [docs [Hv Hc]].
      rewrite Hc. cbn [cache_lookup].
      destruct (str_eqb u url) eqn:Eu; [|reflexivity].
      apply str_eqb_eq in Eu. subst u. rewrite E.
      unfold record_call. now rewrite Hv.
Qed.

(** The entry for a URL is the record of the first call on it. *)
Lemma cache_after_lookup (url : str) (h : list (World * str)) :
  cache_lookup url (cache_after h)
  = match first_call url h with
    | Some w0 => record_call (load_docs w0 url)
    | None => None
    end.
Proof. unfold cache_after. now rewrite cache_lookup_fold. Qed.

Lemma cache_after_miss_iff (url : str) (h : list (World * str)) :
  cache_lookup url (cache_after h) = None <-> first_call url h = None.
Proof.
  rewrite cache_after_lookup. destruct (first_call url h) as [w0|];
    [|tauto].
  destruct (record_call_load_docs w0 url) as [docs [_ ->]].
  split; discriminate.
Qed.

Lemma existsb_replay (g : event -> bool) (ms : list message) :
  (forall m, g (st_error m) = false) ->
  existsb g (List.map st_error ms) = false.
Proof.
  intros Hg. induction ms as [|m ms IH]; [reflexivity|].
  cbn. now rewrite Hg.
Qed.

Lemma In_messages (t : list event) (m : message) :
  In m (messages t) <-> In (st_error m) t.
Proof.
  unfold messages. rewrite in_flat_map. split.
  - intros [e [He Hm]]. destruct e; try contradiction.
    destruct Hm as [->|[]]. exact He.
  - intros H. exists (st_error m). split; [exact H | now left].
Qed.

(** Where the answer of the decorated function comes from: the body run
    now if the URL is new, the body as it ran in the first call on the URL
    otherwise. *)
Lemma load_docs_cached_answer (h : list (World * str)) (w : World)
  (url : str) :
  (first_call url h = None ->
   fst (load_docs_cached (cache_after h) w url) = load_docs w url)
  /\ (first_call url h <> None ->
      trace (fst (load_docs_cached (cache_after h) w url))
      = List.map st_error
          (messages (trace (load_docs (answering_world h w url) url))))
  /\ value (fst (load_docs_cached (cache_after h) w url))
     = value (load_docs (answering_world h w url) url)
  /\ (forall m,
        In (st_error m) (trace (fst (load_docs_cached (cache_after h) w url)))
        <-> In (st_error m) (trace (load_docs (answering_world h w url) url))).
Proof.
  pose proof (cache_after_lookup url h) as Hl. unfold answering_world.
  destruct (first_call url h) as [w0|].
  - destruct (record_call_load_docs w0 url) as [docs [Hv Hr]].
    rewrite Hr in Hl. rewrite (load_docs_cached_hit _ w _ Hl).
    cbn [fst snd trace value replayed returned].
    split; [discriminate|]. split; [reflexivity|]. split; [now rewrite Hv|].
    intros m. rewrite in_map_iff, <- In_messages. split.
    + intros [x [[= ->] H]]. exact H.
    + intros H. now exists m.
  - rewrite (load_docs_cached_miss _ w url Hl).
    split; [reflexivity|]. split; [intros H; now elim H|].
    split; [reflexivity|]. tauto.
Qed.

Lemma existsb_is_error_iff (t : list event) :
  existsb is_error t = true <-> exists m, In (st_error m) t.
Proof.
  rewrite existsb_exists. split.
  - intros [e [Hin He]]. destruct e; try discriminate.
    eexists. eassumption.
  - intros [m H]. now exists (st_error m).
Qed.

Lemma on_generate_cached_miss (c : cache) (w : World) (o : Options)
  (url : str) :
  cache_lookup url c = None ->
  fst (on_generate_cached c w o url) = on_generate w o url.
Proof.
  intros H. unfold on_generate_cached, on_generate.
  destruct (negb (truthy (strip url))); [reflexivity|].
  destruct (negb (validators_url w url)); [reflexivity|].
  unfold load_docs_cached. rewrite H. reflexivity.
Qed.

End Memo.

(** ** Properties of the acquirer and of the handler *)

(** C1, as the code has it: a URL is treated as video exactly when the URL
    string contains [youtube.com] or [youtu.be] (anywhere, case-sensitively),
    and as a generic web page otherwise.  [load_docs] is memoised: a URL
    whose result is in the cache is answered without calling any loader.
    Otherwise the video loader is called, and called first, exactly when
    the URL contains one of the two substrings, and the generic loader is
    called, and called first, exactly when it contains neither.  So for a
    URL that contains [youtube.com] the generic path is never attempted,
    and the video path is attempted whenever anything is. *)
Theorem load_docs_dispatch (c : cache) (w : World) (url : str) :
  (In (ev_YoutubeLoader url) (trace (fst (load_docs_cached c w url)))
   <-> (Infix (lit "youtube.com") url \/ Infix (lit "youtu.be") url) /\
       cache_lookup url c = None)
  /\ (In (ev_UnstructuredURLLoader [url])
         (trace (fst (load_docs_cached c w url)))
      <-> ~ (Infix (lit "youtube.com") url \/ Infix (lit "youtu.be") url) /\
          cache_lookup url c = None)
  /\ (Infix (lit "youtube.com") url \/ Infix (lit "youtu.be") url ->
      existsb calls_generic_loader (trace (fst (load_docs_cached c w url)))
      = false /\
      (cache_lookup url c = None ->
       hd_error (trace (fst (load_docs_cached c w url)))
       = Some (ev_YoutubeLoader url)))
  /\ (~ (Infix (lit "youtube.com") url \/ Infix (lit "youtu.be") url) ->
      existsb calls_video_loader (trace (fst (load_docs_cached c w url)))
      = false /\
      (cache_lookup url c = None ->
       hd_error (trace (fst (load_docs_cached c w url)))
       = Some (ev_UnstructuredURLLoader [url])))
  /\ (cache_lookup url c <> None ->
      existsb calls_video_loader (trace (fst (load_docs_cached c w url)))
      = false /\
      existsb calls_generic_loader (trace (fst (load_docs_cached c w url)))
      = false).
Proof.
  pose proof (is_video_url_spec url) as Hspec.
  destruct (cache_lookup url c) as [r|] eqn:E.
  - rewrite (load_docs_cached_hit _ w _ E). cbn [fst trace].
    assert (forall x, In x (List.map st_error (replayed r)) ->
                      exists m, x = st_error m) as Hin.
    { intros x H. apply in_map_iff in H. destruct H as [m [<- _]].
      now exists m. }
    rewrite !existsb_replay by reflexivity.
    split; [|split; [|split; [|split]]].
    + split; [intros H; destruct (Hin _ H); discriminate|].
      intros [_ H]. discriminate.
    + split; [intros H; destruct (Hin _ H); discriminate|].
      intros [_ H]. discriminate.
    + intros _. split; [reflexivity | discriminate].
    + intros _. split; [reflexivity | discriminate].
    + intros _. now split.
  - rewrite (load_docs_cached_miss c w url E). rewrite load_docs_cases.
    destruct (is_video_url url) eqn:Ev.
    + assert (Infix (lit "youtube.com") url \/ Infix (lit "youtu.be") url)
        as Hv by now apply Hspec.
      assert (forall t : list event,
                existsb calls_generic_loader t = false ->
                ~ In (ev_UnstructuredURLLoader [url]) t) as Hno.
      { intros t Ht. now apply not_in_class with (g := calls_generic_loader). }
      destruct (YoutubeLoader_load w url);
        [|destruct (subprocess_run w (yt_dlp_argv url))];
        cbn [trace fst];
        (split; [|split; [|split; [|split]]]);
        try (split; [intros _; now split | intros _; now left]);
        try (split; [intros H; exfalso; revert H; now apply Hno
                    | intros [H _]; now elim H]);
        try (intros _; now split);
        try (intros H; now elim H).
    + assert (~ (Infix (lit "youtube.com") url \/ Infix (lit "youtu.be") url))
        as Hv.
      { intros H. apply Hspec in H. congruence. }
      assert (forall t : list event,
                existsb calls_video_loader t = false ->
                ~ In (ev_YoutubeLoader url) t) as Hno.
      { intros t Ht. now apply not_in_class with (g := calls_video_loader). }
      destruct (UnstructuredURLLoader_load w [url]);
        cbn [trace fst];
        (split; [|split; [|split; [|split]]]);
        try (split; [intros H; exfalso; revert H; now apply Hno
                    | intros [H _]; now elim Hv]);
        try (split; [intros _; now split | intros _; now left]);
        try (intros _; now split);
        try (intros H; now elim Hv);
        try (intros H; now elim H).
Qed.

Lemma load_docs_dispatch_witness :
  ((Infix (lit "youtube.com") (lit "https://youtu.be/abc") \/
    Infix (lit "youtu.be") (lit "https://youtu.be/abc")) /\
   cache_lookup (lit "https://youtu.be/abc") [] = None)
  /\ In (ev_YoutubeLoader (lit "https://youtu.be/abc"))
        (trace (fst (load_docs_cached []
           (constant_world (Raises (lit "no transcript"))
              (Returns (lit "Title")) (Returns []) (Returns (lit "summary")))
           (lit "https://youtu.be/abc")))).
Proof.
  assert ((Infix (lit "youtube.com") (lit "https://youtu.be/abc") \/
           Infix (lit "youtu.be") (lit "https://youtu.be/abc")) /\
          cache_lookup (lit "https://youtu.be/abc") [] = None) as H.
  { split; [|reflexivity]. right. apply str_in_spec. vm_compute.
    reflexivity. }
  split; [exact H|].
  exact (proj2 (proj1 (load_docs_dispatch []
           (constant_world (Raises (lit "no transcript"))
              (Returns (lit "Title")) (Returns []) (Returns (lit "summary")))
           (lit "https://youtu.be/abc"))) H).
Defined.

(** A URL that contains [youtube.com], pressed twice: the first call tries
    the video path, the second is answered from the cache without any
    loader call, also when the collaborators would now answer. *)
Example youtube_url_pressed_twice :
  trace (fst (load_docs_cached []
    (constant_world (Raises (lit "no transcript")) (Raises (lit "no yt-dlp"))
       (Returns []) (Returns (lit "summary")))
    (lit "https://www.youtube.com/watch?v=abc")))
  = [ev_YoutubeLoader (lit "https://www.youtube.com/watch?v=abc");
     ev_subprocess_run (yt_dlp_argv (lit "https://www.youtube.com/watch?v=abc"));
     st_error (msg_youtube_failed (lit "no yt-dlp"))]
  /\ trace (fst (load_docs_cached
       (snd (load_docs_cached []
          (constant_world (Raises (lit "no transcript"))
             (Raises (lit "no yt-dlp")) (Returns []) (Returns (lit "summary")))
          (lit "https://www.youtube.com/watch?v=abc")))
       (constant_world (Returns [mkDocument (lit "transcript") []])
          (Returns (lit "Title")) (Returns []) (Returns (lit "summary")))
       (lit "https://www.youtube.com/watch?v=abc")))
     = [st_error (msg_youtube_failed (lit "no yt-dlp"))].
Proof. split; vm_compute; reflexivity. Qed.

(** C1 as stated fails: the classification does not look at the host.  The
    URL below has the host [example.com], which matches no video platform,
    and is sent down the video path because [youtube.com] occurs in its
    query string. *)
Lemma video_dispatch_ignores_host :
  spec_url_host (lit "https://example.com/page?ref=youtube.com")
  = lit "example.com"
  /\ spec_is_video_host (lit "https://example.com/page?ref=youtube.com") = false
  /\ is_video_url (lit "https://example.com/page?ref=youtube.com") = true
  /\ trace (load_docs
       (constant_world (Returns []) (Returns []) (Returns []) (Returns []))
       (lit "https://example.com/page?ref=youtube.com"))
     = [ev_YoutubeLoader (lit "https://example.com/page?ref=youtube.com")].
Proof. repeat split; vm_compute; reflexivity. Qed.

(** The other direction: a video host written in upper case is sent down
    the generic path, the substring test being case-sensitive. *)
Example upper_case_video_host_is_generic :
  spec_is_video_host (lit "https://WWW.YOUTUBE.COM/watch?v=abc") = true
  /\ is_video_url (lit "https://WWW.YOUTUBE.COM/watch?v=abc") = false.
Proof. split; vm_compute; reflexivity. Qed.

(** C2: for a video URL (accepted by the validator) whose primary loader
    raises and whose command-line fallback produces no text, [load_docs]
    returns no documents, the handler ends by displaying the "No content
    found" error, the summarization chain is never invoked and nothing of
    the result tabs is displayed. *)
Theorem video_acquisition_failure (w : World) (o : Options) (url err : str) :
  is_video_url url = true ->
  validators_url w url = true ->
  YoutubeLoader_load w url = Raises err ->
  fallback_without_text w url ->
  value (load_docs w url) = Returns None
  /\ (exists shown,
        on_generate w o url
        = [ev_load_docs url; ev_YoutubeLoader url;
           ev_subprocess_run (yt_dlp_argv url)]
          ++ shown ++ [st_error msg_no_content]
        /\ (shown = [] \/
            exists e, shown = [st_error (msg_youtube_failed e)]))
  /\ existsb calls_chain (on_generate w o url) = false
  /\ existsb summary_output (on_generate w o url) = false.
Proof.
  intros Hvid Hval Hyt Hfb.
  rewrite (@on_generate_valid w o url (@video_url_not_blank url Hvid) Hval).
  rewrite load_docs_cases, Hvid, Hyt. unfold fallback_without_text in Hfb.
  destruct (subprocess_run w (yt_dlp_argv url)) as [stdout|e].
  - assert (strip stdout = []) as -> by (now apply strip_by_nil_iff).
    cbn. split; [reflexivity|]. split; [|now split].
    exists []. split; [reflexivity | now left].
  - cbn. split; [reflexivity|]. split; [|now split].
    exists [st_error (msg_youtube_failed e)]. split; [reflexivity|].
    right. now exists e.
Qed.

Lemma video_acquisition_failure_witness :
  on_generate
    (constant_world (Raises (lit "no transcript")) (Returns (lit "  "))
                    (Returns []) (Returns (lit "summary")))
    (mkOptions 300 true BulletPoints) (lit "https://youtu.be/abc")
  = [ev_load_docs (lit "https://youtu.be/abc");
     ev_YoutubeLoader (lit "https://youtu.be/abc");
     ev_subprocess_run (yt_dlp_argv (lit "https://youtu.be/abc"));
     st_error msg_no_content]
  /\ existsb summary_output
       (on_generate
          (constant_world (Raises (lit "no transcript")) (Returns (lit "  "))
                          (Returns []) (Returns (lit "summary")))
          (mkOptions 300 true BulletPoints) (lit "https://youtu.be/abc"))
     = false.
Proof.
  pose proof (@video_acquisition_failure
    (constant_world (Raises (lit "no transcript")) (Returns (lit "  "))
                    (Returns []) (Returns (lit "summary")))
    (mkOptions 300 true BulletPoints) (lit "https://youtu.be/abc")
    (lit "no transcript")
    eq_refl eq_refl eq_refl eq_refl) as [_ [_ [_ H]]].
  split; [vm_compute; reflexivity | exact H].
Defined.

(** C6: for a video URL whose primary loader raises and whose fallback
    returns output with some text in it, [load_docs] returns exactly one
    Document; its content is the captured output without the whitespace
    around it and its metadata is the source, the submitted URL. *)
Theorem video_fallback_document (w : World) (url err stdout : str) :
  is_video_url url = true ->
  YoutubeLoader_load w url = Raises err ->
  subprocess_run w (yt_dlp_argv url) = Returns stdout ->
  strip stdout <> [] ->
  load_docs w url
  = ([ev_YoutubeLoader url; ev_subprocess_run (yt_dlp_argv url)],
     Returns (Some [mkDocument (strip stdout) [(lit "source", url)]]))
  /\ exists before after,
       stdout = before ++ strip stdout ++ after /\
       all_of is_space before /\ all_of is_space after /\
       clean_ends is_space (strip stdout).
Proof.
  intros Hvid Hyt Hrun Hne. split; [|apply strip_by_spec].
  rewrite load_docs_cases, Hvid, Hyt, Hrun.
  destruct (strip stdout); [now elim Hne | reflexivity].
Qed.

Lemma video_fallback_document_witness :
  load_docs
    (constant_world (Raises (lit "no transcript"))
                    (Returns (lit " Title: a talk  ")) (Returns [])
                    (Returns (lit "summary")))
    (lit "https://youtu.be/abc")
  = ([ev_YoutubeLoader (lit "https://youtu.be/abc");
      ev_subprocess_run (yt_dlp_argv (lit "https://youtu.be/abc"))],
     Returns (Some [mkDocument (lit "Title: a talk")
                      [(lit "source", lit "https://youtu.be/abc")]])).
Proof.
  refine (proj1 (@video_fallback_document
    (constant_world (Raises (lit "no transcript"))
                    (Returns (lit " Title: a talk  ")) (Returns [])
                    (Returns (lit "summary")))
    (lit "https://youtu.be/abc") (lit "no transcript")
    (lit " Title: a talk  ") eq_refl eq_refl eq_refl _)).
  vm_compute. discriminate.
Defined.

(** C7: for a submitted string that is empty or whitespace only, or that the
    URL validator rejects, the handler displays one inline error and nothing
    else: [load_docs] is not called, the chain is not invoked and no
    summary is displayed. *)
Theorem invalid_input_rejected (w : World) (o : Options) (generic_url : str) :
  all_of is_space generic_url \/ validators_url w generic_url = false ->
  (on_generate w o generic_url = [st_error msg_enter_url] \/
   on_generate w o generic_url = [st_error msg_invalid_url])
  /\ existsb calls_load_docs (on_generate w o generic_url) = false
  /\ existsb calls_video_loader (on_generate w o generic_url) = false
  /\ existsb calls_generic_loader (on_generate w o generic_url) = false
  /\ existsb calls_chain (on_generate w o generic_url) = false
  /\ existsb summary_output (on_generate w o generic_url) = false.
Proof.
  intros H. unfold on_generate.
  destruct (strip generic_url) as [|c s] eqn:E.
  - cbn. repeat split; auto.
  - cbn [truthy negb]. destruct H as [H|H].
    + apply strip_by_nil_iff in H. unfold strip in E. rewrite H in E.
      discriminate.
    + rewrite H. cbn. repeat split; auto.
Qed.

Lemma invalid_input_rejected_witness :
  (on_generate
     (constant_world (Returns []) (Returns []) (Returns []) (Returns []))
     (mkOptions 300 true Paragraph) (lit "   ")
   = [st_error msg_enter_url] \/
   on_generate
     (constant_world (Returns []) (Returns []) (Returns []) (Returns []))
     (mkOptions 300 true Paragraph) (lit "   ")
   = [st_error msg_invalid_url])
  /\ on_generate
       (mkWorld (fun _ => false) (fun _ => Returns []) (fun _ => Returns [])
                (fun _ => Returns []) (fun _ _ _ => Returns []))
       (mkOptions 300 true Paragraph) (lit "not a url")
     = [st_error msg_invalid_url].
Proof.
  split.
  - refine (proj1 (@invalid_input_rejected
      (constant_world (Returns []) (Returns []) (Returns []) (Returns []))
      (mkOptions 300 true Paragraph) (lit "   ") _)).
    left. vm_compute. reflexivity.
  - vm_compute. reflexivity.
Defined.

(** A field holding only no-break spaces is blank to [str.strip()] too. *)
Example blank_input_unicode_whitespace :
  on_generate
    (constant_world (Returns []) (Returns []) (Returns []) (Returns []))
    (mkOptions 300 true Paragraph) [0xA0%N; 0x2003%N; 32%N]
  = [st_error msg_enter_url].
Proof. vm_compute. reflexivity. Qed.

(** C8: whenever the statistics panel is displayed, a summary was produced
    and displayed with it, and the word count shown is the number of
    whitespace-delimited tokens of that summary: the summary has a
    tokenization, it has only one, and the count is its length (which is how
    many strings the summary splits into on whitespace). *)
Theorem word_count_is_token_count (w : World) (o : Options)
  (generic_url : str) (word_count link_count : nat) :
  In (st_stats word_count link_count) (on_generate w o generic_url) ->
  exists docs output_summary toks,
    chain_invoke w (summary_style o) (summary_length o) docs
      = Returns output_summary /\
    In (st_summary output_summary) (on_generate w o generic_url) /\
    Tokenization output_summary toks /\
    (forall toks', Tokenization output_summary toks' -> toks' = toks) /\
    word_count = List.length toks /\
    word_count = List.length (split output_summary).
Proof.
  intros Hin. apply on_generate_stats in Hin.
  destruct Hin as [docs [s [_ [Hc [Heq [Hwc _]]]]]].
  exists docs, s, (split s). split; [exact Hc|]. split.
  { rewrite Heq. right. apply in_or_app. right. cbn. tauto. }
  split; [apply split_Tokenization|]. split.
  { intros toks' H. symmetry. now apply Tokenization_split. }
  now split.
Qed.

Lemma word_count_is_token_count_witness :
  In (st_stats 3 0)
     (on_generate
        (constant_world (Returns []) (Returns [])
           (Returns [mkDocument (lit "some page text") []])
           (Returns (lit " a short   summary ")))
        (mkOptions 300 true Paragraph) (lit "https://example.com/"))
  /\ exists docs output_summary toks,
       chain_invoke
         (constant_world (Returns []) (Returns [])
            (Returns [mkDocument (lit "some page text") []])
            (Returns (lit " a short   summary ")))
         Paragraph 300 docs = Returns output_summary /\
       In (st_summary output_summary)
          (on_generate
             (constant_world (Returns []) (Returns [])
                (Returns [mkDocument (lit "some page text") []])
                (Returns (lit " a short   summary ")))
             (mkOptions 300 true Paragraph) (lit "https://example.com/")) /\
       Tokenization output_summary toks /\
       (forall toks', Tokenization output_summary toks' -> toks' = toks) /\
       3 = List.length toks /\
       3 = List.length (split output_summary).
Proof.
  assert (In (st_stats 3 0)
     (on_generate
        (constant_world (Returns []) (Returns [])
           (Returns [mkDocument (lit "some page text") []])
           (Returns (lit " a short   summary ")))
        (mkOptions 300 true Paragraph) (lit "https://example.com/"))) as H.
  { vm_compute. tauto. }
  split; [exact H|].
  exact (word_count_is_token_count _ _ _ _ _ H).
Defined.



(** With the toggle on, the same run counts the filtered list. *)
Example link_count_filtered_when_links_shown :
  on_generate
    (constant_world (Returns []) (Returns [])
       (Returns [mkDocument
          (lit "see https://facebook.com/x. and (https://a.org/b),") []])
       (Returns (lit "summary")))
    (mkOptions 300 true Paragraph) (lit "https://example.com/")
  = [ev_load_docs (lit "https://example.com/");
     ev_UnstructuredURLLoader [lit "https://example.com/"];
     ev_chain_invoke
       [mkDocument
          (lit "see https://facebook.com/x. and (https://a.org/b),") []];
     st_tabs; st_summary (lit "summary"); st_download_button (lit "summary");
     st_links_open; st_link (lit "https://a.org/b"); st_links_close;
     st_stats 1 1].
Proof. vm_compute. reflexivity. Qed.

(** ** The regex scan: shape and locality of a match *)

Section Scan.

Lemma take_while_all (f : N -> bool) (s : str) :
  forallb f (take_while f s) = true.
Proof.
  induction s as [|c s IH]; simpl; [reflexivity|].
  destruct (f c) eqn:E; simpl; [now rewrite E | reflexivity].
Qed.

Lemma firstn_take_while (f : N -> bool) (s : str) :
  firstn (List.length (take_while f s)) s = take_while f s.
Proof.
  induction s as [|c s IH]; simpl; [reflexivity|].
  destruct (f c); simpl; [now rewrite IH | reflexivity].
Qed.

Lemma take_while_app_all (f : N -> bool) (p s : str) :
  forallb f p = true -> take_while f (p ++ s) = p ++ take_while f s.
Proof.
  induction p as [|c p IH]; simpl; [reflexivity|].
  intros H. apply andb_true_iff in H. destruct H as [-> H].
  now rewrite IH.
Qed.

Lemma match_tail_shape (s : str) (n : nat) :
  match_tail s = Some n ->
  exists q, s = lit "://" ++ q /\ take_while non_space q <> [] /\
            n = 3 + List.length (take_while non_space q).
Proof.
  unfold match_tail. destruct (starts_with (lit "://") s) eqn:E;
    [|discriminate].
  apply starts_with_spec in E. destruct E as [q ->]. exists q.
  change (skipn 3 (lit "://" ++ q)) with q in H.
  destruct (take_while non_space q) as [|c r]; [discriminate|].
  injection H as <-. split; [reflexivity|]. split; [discriminate|reflexivity].
Qed.

(** A match is a scheme, [://] and a non-empty run without whitespace. *)
Lemma match_url_shape (s : str) (n : nat) :
  match_url s = Some n ->
  exists scheme q,
    (scheme = lit "http" \/ scheme = lit "https") /\
    s = scheme ++ lit "://" ++ q /\
    take_while non_space q <> [] /\
    n = List.length scheme + 3 + List.length (take_while non_space q).
Proof.
  unfold match_url. destruct (starts_with (lit "http") s) eqn:E;
    [|discriminate].
  apply starts_with_spec in E. destruct E as [s1 ->].
  change (skipn 4 (lit "http" ++ s1)) with s1.
  assert (option_map (Nat.add 4) (match_tail s1) = Some n ->
          exists scheme q,
            (scheme = lit "http" \/ scheme = lit "https") /\
            lit "http" ++ s1 = scheme ++ lit "://" ++ q /\
            take_while non_space q <> [] /\
            n = List.length scheme + 3 + List.length (take_while non_space q))
    as Hplain.
  { destruct (match_tail s1) as [m|] eqn:Em; [|discriminate].
    intros [= <-]. apply match_tail_shape in Em.
    destruct Em as [q [-> [Hq ->]]].
    exists (lit "http"), q. split; [now left|]. now split. }
  destruct s1 as [|c s2]; [exact Hplain|].
  destruct (N.eqb c 115) eqn:Ec; [|exact Hplain].
  destruct (match_tail s2) as [m|] eqn:Em; [|exact Hplain].
  cbn [option_map]. intros [= <-]. apply N.eqb_eq in Ec. subst c.
  apply match_tail_shape in Em. destruct Em as [q [-> [Hq ->]]].
  exists (lit "https"), q. split; [now right|]. now split.
Qed.

Lemma match_url_text (s : str) (n : nat) :
  match_url s = Some n ->
  exists scheme run rest,
    (scheme = lit "http" \/ scheme = lit "https") /\
    run <> [] /\ forallb non_space run = true /\
    s = (scheme ++ lit "://" ++ run) ++ rest /\
    firstn n s = scheme ++ lit "://" ++ run /\
    n = List.length (scheme ++ lit "://" ++ run).
Proof.
  intros H. apply match_url_shape in H.
  destruct H as [scheme [q [Hs [-> [Hq ->]]]]].
  pose proof (take_while_all non_space q) as Ha.
  pose proof (firstn_skipn (List.length (take_while non_space q)) q)
    as Hsplit.
  rewrite firstn_take_while in Hsplit.
  set (t := take_while non_space q) in *.
  set (r := skipn (List.length t) q) in *.
  clearbody r. clearbody t. subst q.
  exists scheme, t, r.
  assert (List.length scheme + 3 + List.length t
          = List.length (scheme ++ lit "://" ++ t)) as Hl.
  { rewrite !length_app. simpl. lia. }
  assert (scheme ++ lit "://" ++ t ++ r
          = (scheme ++ lit "://" ++ t) ++ r) as Hassoc.
  { now rewrite <- !app_assoc. }
  split; [exact Hs|]. split; [exact Hq|]. split; [exact Ha|].
  split; [exact Hassoc|]. split; [|exact Hl].
  rewrite Hl, Hassoc, firstn_app, firstn_all, Nat.sub_diag.
  cbn [firstn]. now rewrite app_nil_r.
Qed.

Lemma scheme_non_space (scheme : str) :
  scheme = lit "http" \/ scheme = lit "https" ->
  forallb non_space (scheme ++ lit "://") = true.
Proof. intros [->| ->]; reflexivity. Qed.

Lemma match_url_bound (s : str) (n : nat) :
  match_url s = Some n -> n <= List.length (take_while non_space s).
Proof.
  intros H. apply match_url_text in H.
  destruct H as [scheme [run [rest [Hs [_ [Hrun [-> [_ ->]]]]]]]].
  rewrite take_while_app_all.
  - rewrite !length_app. lia.
  - rewrite app_assoc, forallb_app, (scheme_non_space Hs). exact Hrun.
Qed.

(** Locality: what follows the next whitespace does not matter. *)
Lemma take_while_app_space (a b : str) (c : N) :
  is_space c = true ->
  take_while non_space (a ++ c :: b) = take_while non_space a.
Proof.
  intros Hc. induction a as [|x a IH]; simpl.
  - unfold non_space. now rewrite Hc.
  - destruct (non_space x); [now rewrite IH | reflexivity].
Qed.

Lemma starts_with_app_space (p a b : str) (c : N) :
  forallb non_space p = true -> is_space c = true ->
  starts_with p (a ++ c :: b) = starts_with p a.
Proof.
  intros Hp Hc. revert a. induction p as [|y p IH]; intros a;
    [reflexivity|].
  simpl in Hp. apply andb_true_iff in Hp. destruct Hp as [Hy Hp].
  destruct a as [|x a]; simpl.
  - destruct (N.eqb y c) eqn:E; [|reflexivity].
    apply N.eqb_eq in E. subst y. unfold non_space in Hy.
    rewrite Hc in Hy. discriminate.
  - now rewrite IH.
Qed.

Lemma skipn_app_prefix (p a r : str) :
  starts_with p a = true ->
  skipn (List.length p) (a ++ r) = skipn (List.length p) a ++ r.
Proof.
  intros H. apply starts_with_spec in H. destruct H as [q ->].
  rewrite skipn_app, length_app.
  replace (List.length p - (List.length p + List.length q)) with 0 by lia.
  reflexivity.
Qed.

Lemma match_tail_app_space (a b : str) (c : N) :
  is_space c = true -> match_tail (a ++ c :: b) = match_tail a.
Proof.
  intros Hc. unfold match_tail.
  rewrite starts_with_app_space by (reflexivity || exact Hc).
  destruct (starts_with (lit "://") a) eqn:E; [|reflexivity].
  change 3 with (List.length (lit "://")).
  rewrite skipn_app_prefix by exact E.
  now rewrite take_while_app_space.
Qed.

Lemma space_not_s (c : N) : is_space c = true -> N.eqb c 115 = false.
Proof.
  intros H. destruct (N.eqb c 115) eqn:E; [|reflexivity].
  apply N.eqb_eq in E. subst c. discriminate.
Qed.

Lemma match_url_app_space (a b : str) (c : N) :
  is_space c = true -> match_url (a ++ c :: b) = match_url a.
Proof.
  intros Hc. unfold match_url.
  rewrite starts_with_app_space by (reflexivity || exact Hc).
  destruct (starts_with (lit "http") a) eqn:E; [|reflexivity].
  change 4 with (List.length (lit "http")).
  rewrite skipn_app_prefix by exact E.
  destruct (skipn (List.length (lit "http")) a) as [|x a2].
  - cbn [app]. rewrite (space_not_s c Hc).
    change (c :: b) with ([] ++ c :: b).
    now rewrite match_tail_app_space.
  - cbn [app]. rewrite match_tail_app_space by exact Hc.
    change (x :: a2 ++ c :: b) with ((x :: a2) ++ c :: b).
    now rewrite match_tail_app_space.
Qed.

Lemma findall_from_app_space (a b : str) (c : N) (k : nat) :
  is_space c = true ->
  k <= List.length (take_while non_space a) ->
  findall_from k (a ++ c :: b) = findall_from k a ++ findall_from 0 b.
Proof.
  intros Hc. revert k. induction a as [|x a IH]; intros k Hk.
  - simpl in Hk. replace k with 0 by lia. cbn [app findall_from].
    change (c :: b) with ([] ++ c :: b) at 1.
    rewrite match_url_app_space by exact Hc. reflexivity.
  - change ((x :: a) ++ c :: b) with (x :: (a ++ c :: b)).
    cbn [findall_from].
    destruct k as [|k].
    + change (x :: (a ++ c :: b)) with ((x :: a) ++ c :: b).
      rewrite match_url_app_space by exact Hc.
      destruct (match_url (x :: a)) as [n|] eqn:E.
      * pose proof (match_url_bound _ E) as Hb.
        assert (n <= List.length (x :: a)) as Hn.
        { etransitivity; [exact Hb|]. clear.
          generalize (x :: a). intros s.
          induction s as [|y s IH]; simpl; [lia|].
          destruct (non_space y); simpl; lia. }
        rewrite firstn_app.
        replace (n - List.length (x :: a)) with 0 by lia.
        cbn [firstn]. rewrite app_nil_r.
        rewrite IH; [reflexivity|].
        simpl in Hb. destruct (non_space x); simpl in Hb; lia.
      * rewrite IH by lia. reflexivity.
    + simpl in Hk. destruct (non_space x); simpl in Hk; [|lia].
      rewrite IH by lia. reflexivity.
Qed.

Lemma findall_from_Infix (s : str) (k : nat) :
  Forall (fun link => Infix link s) (findall_from k s).
Proof.
  revert k. induction s as [|c s IH]; intros k; cbn [findall_from];
    [constructor|].
  assert (forall k', Forall (fun link => Infix link (c :: s))
                            (findall_from k' s)) as Hrec.
  { intros k'. eapply Forall_impl; [|apply IH].
    intros link [p [q ->]]. now exists (c :: p), q. }
  destruct k as [|k]; [|apply Hrec].
  destruct (match_url (c :: s)) as [n|] eqn:E; [|apply Hrec].
  constructor; [|apply Hrec].
  exists [], (skipn n (c :: s)). cbn [app]. symmetry. apply firstn_skipn.
Qed.

Lemma findall_from_shape (s : str) (k : nat) :
  Forall (fun link =>
            exists scheme run,
              (scheme = lit "http" \/ scheme = lit "https") /\
              run <> [] /\ forallb non_space run = true /\
              link = scheme ++ lit "://" ++ run)
         (findall_from k s).
Proof.
  revert k. induction s as [|c s IH]; intros k; cbn [findall_from];
    [constructor|].
  destruct k as [|k]; [|apply IH].
  destruct (match_url (c :: s)) as [n|] eqn:E; [|apply IH].
  constructor; [|apply IH].
  apply match_url_text in E.
  destruct E as [scheme [run [rest [Hs [Hne [Hrun [_ [Hf _]]]]]]]].
  exists scheme, run. now rewrite Hf.
Qed.

End Scan.

(** ** Further properties of link extraction and filtering *)

Section Links.

Lemma lstrip_by_app_keep (f : N -> bool) (a b : str) (z : N) :
  f z = false -> lstrip_by f (a ++ z :: b) = lstrip_by f a ++ z :: b.
Proof.
  intros Hz. induction a as [|x a IH]; simpl.
  - now rewrite Hz.
  - destruct (f x); [exact IH | reflexivity].
Qed.

Lemma rstrip_by_app_keep (f : N -> bool) (p q : str) (z : N) :
  f z = false ->
  rstrip_by f ((p ++ [z]) ++ q) = (p ++ [z]) ++ rstrip_by f q.
Proof.
  intros Hz. unfold rstrip_by.
  rewrite !rev_app_distr. cbn [rev app].
  rewrite lstrip_by_app_keep by exact Hz.
  rewrite rev_app_distr. cbn [rev]. now rewrite rev_involutive.
Qed.

Lemma rstrip_by_all (f g : N -> bool) (s : str) :
  forallb g s = true -> forallb g (rstrip_by f s) = true.
Proof.
  intros H. destruct (rstrip_by_split f s) as [q [Hs _]].
  rewrite Hs, forallb_app in H. now apply andb_true_iff in H.
Qed.

Lemma has_scheme_intro (scheme rest : str) :
  scheme = lit "http" \/ scheme = lit "https" ->
  has_scheme (scheme ++ lit "://" ++ rest) = true.
Proof.
  unfold has_scheme. intros [->| ->]; apply orb_true_iff; [left|right];
    apply starts_with_spec; now exists rest.
Qed.

(** Stripping a match leaves the scheme and [://] in place. *)
Lemma strip_match (scheme run : str) :
  scheme = lit "http" \/ scheme = lit "https" ->
  strip_chars (lit ".,)") (scheme ++ lit "://" ++ run)
  = scheme ++ lit "://" ++ rstrip_chars (lit ".,)") run.
Proof.
  intros Hs.
  assert (starts_with (lit "http") (scheme ++ lit "://" ++ run) = true)
    as Hh.
  { apply starts_with_spec. destruct Hs as [->| ->].
    - now eexists.
    - now exists (lit "s://" ++ run). }
  rewrite (http_no_leading_punct _ Hh). unfold rstrip_chars.
  destruct Hs as [->| ->].
  - change (lit "http" ++ lit "://" ++ run)
      with ((lit "http:/" ++ [47%N]) ++ run).
    now rewrite rstrip_by_app_keep.
  - change (lit "https" ++ lit "://" ++ run)
      with ((lit "https:/" ++ [47%N]) ++ run).
    now rewrite rstrip_by_app_keep.
Qed.

Lemma filter_links_concat (ls : list (list str)) :
  filter_links (concat ls) = concat (List.map filter_links ls).
Proof.
  induction ls as [|l ls IH]; [reflexivity|].
  cbn [concat List.map]. now rewrite filter_links_app, IH.
Qed.

Lemma findall_join_space (parts : list str) :
  findall_urls (join (lit " ") parts)
  = concat (List.map findall_urls parts).
Proof.
  induction parts as [|p rest IH]; [reflexivity|].
  destruct rest as [|p2 rest].
  - cbn [join List.map concat]. now rewrite app_nil_r.
  - change (join (lit " ") (p :: p2 :: rest))
      with (p ++ 32%N :: join (lit " ") (p2 :: rest)).
    unfold findall_urls in *.
    rewrite findall_from_app_space; [|reflexivity|lia].
    now rewrite IH.
Qed.

Lemma punct_cases (c : N) :
  punct c = true -> c = 46%N \/ c = 44%N \/ c = 41%N.
Proof.
  unfold punct, char_in. change (lit ".,)") with [46; 44; 41]%N.
  cbn [existsb]. rewrite !orb_true_iff, !N.eqb_eq.
  intros [H|[H|[H|H]]]; [auto | auto | auto | discriminate].
Qed.

(** A string made of the three punctuation characters is on no denylist. *)
Lemma punct_only_not_social (link : str) :
  all_of punct link -> is_social link = false.
Proof.
  intros Hall.
  assert (lower link = link) as Hlow.
  { unfold all_of in Hall. induction link as [|c link IH]; [reflexivity|].
    simpl in Hall. apply andb_true_iff in Hall. destruct Hall as [Hc Hl].
    unfold lower in *. cbn [flat_map]. rewrite (IH Hl).
    apply punct_cases in Hc. destruct Hc as [->|[->| ->]]; reflexivity. }
  destruct (is_social link) eqn:E; [|reflexivity]. exfalso.
  unfold is_social in E. apply existsb_exists in E.
  destruct E as [social [Hin Hs]]. rewrite Hlow in Hs.
  apply str_in_spec in Hs. destruct Hs as [p [q Hs]].
  assert (forall x rest, social = x :: rest -> punct x = true) as Hx.
  { intros x rest ->. unfold all_of in Hall. rewrite forallb_forall in Hall.
    apply Hall. rewrite Hs. apply in_or_app. right. now left. }
  cbn in Hin.
  destruct Hin as [<-|[<-|[<-|[<-|[<-|[]]]]]];
    discriminate (Hx _ _ eq_refl).
Qed.

End Links.

(** ** Every run of the acquirer and of the handler, classified *)

Section Runs.

Variable w : World.
Variable o : Options.

(** The five traces [load_docs] can leave. *)
Lemma load_docs_runs (url : str) :
  (is_video_url url = true /\
   ((exists docs, YoutubeLoader_load w url = Returns docs /\
       load_docs w url = ([ev_YoutubeLoader url], Returns (Some docs)))
    \/ (exists e stdout,
          YoutubeLoader_load w url = Raises e /\
          subprocess_run w (yt_dlp_argv url) = Returns stdout /\
          load_docs w url
          = ([ev_YoutubeLoader url; ev_subprocess_run (yt_dlp_argv url)],
             Returns (if truthy (strip stdout)
                      then Some [mkDocument (strip stdout)
                                   [(lit "source", url)]]
                      else None)))
    \/ (exists e yt_err,
          YoutubeLoader_load w url = Raises e /\
          subprocess_run w (yt_dlp_argv url) = Raises yt_err /\
          load_docs w url
          = ([ev_YoutubeLoader url; ev_subprocess_run (yt_dlp_argv url);
              st_error (msg_youtube_failed yt_err)], Returns None))))
  \/ (is_video_url url = false /\
      ((exists docs, UnstructuredURLLoader_load w [url] = Returns docs /\
          load_docs w url
          = ([ev_UnstructuredURLLoader [url]], Returns (Some docs)))
       \/ (exists web_err,
             UnstructuredURLLoader_load w [url] = Raises web_err /\
             load_docs w url
             = ([ev_UnstructuredURLLoader [url];
                 st_error (msg_website_failed web_err)], Returns None)))).
Proof.
  rewrite load_docs_cases. destruct (is_video_url url); [left|right];
    (split; [reflexivity|]).
  - destruct (YoutubeLoader_load w url) as [docs|e].
    + left. now exists docs.
    + right. destruct (subprocess_run w (yt_dlp_argv url)) as [stdout|ye].
      * left. now exists e, stdout.
      * right. now exists e, ye.
  - destruct (UnstructuredURLLoader_load w [url]) as [docs|e].
    + left. now exists docs.
    + right. now exists e.
Qed.



Lemma load_docs_error_none (url : str) :
  existsb is_error (trace (load_docs w url)) = true ->
  value (load_docs w url) = Returns None.
Proof.
  destruct (load_docs_runs url)
    as [[_ [[d [_ ->]]|[[e [s [_ [_ ->]]]]|[e [y [_ [_ ->]]]]]]]
       |[_ [[d [_ ->]]|[e [_ ->]]]]]; cbn; intros H;
    (discriminate || reflexivity).
Qed.


Lemma shown_links_app (t u : list event) :
  shown_links (t ++ u) = shown_links t ++ shown_links u.
Proof. unfold shown_links. apply flat_map_app. Qed.

Lemma shown_links_st_link (links : list str) :
  shown_links (List.map st_link links) = links.
Proof.
  induction links as [|l links IH]; [reflexivity|].
  cbn. unfold shown_links in IH. now rewrite IH.
Qed.

Lemma shown_links_none (t : list event) :
  existsb summary_output t = false -> shown_links t = [].
Proof.
  induction t as [|e t IH]; [reflexivity|].
  cbn [existsb]. intros H. apply orb_false_iff in H. destruct H as [He Ht].
  unfold shown_links in *. cbn [flat_map]. rewrite (IH Ht).
  destruct e; try reflexivity; discriminate.
Qed.

Lemma on_generate_runs (url : str) : run_kind w o url.
Proof.
  destruct (strip url) as [|c0 s0] eqn:Es.
  { apply run_blank; [exact Es|]. unfold on_generate. now rewrite Es. }
  assert (strip url <> []) as Hs by (rewrite Es; discriminate).
  destruct (validators_url w url) eqn:Ev.
  2:{ apply run_invalid; [exact Hs|exact Ev|].
      unfold on_generate. now rewrite Es, Ev. }
  pose proof (on_generate_valid w o url Hs Ev) as Heq.
  destruct (load_docs_returns w url) as [docs Hd]. rewrite Hd in Heq.
  unfold after_load in Heq.
  destruct (docs_truthy docs) eqn:Et.
  2:{ now apply run_no_content with (docs := docs). }
  destruct docs as [docs|]; [|discriminate]. cbn [docs_list] in Heq.
  assert (docs <> []) as Hne by (intros ->; discriminate).
  destruct (chain_invoke w (summary_style o) (summary_length o) docs)
    as [s|e] eqn:Ec.
  - rewrite render_cases in Heq. cbn [trace fst] in Heq.
    now apply run_complete with (docs := docs) (output_summary := s).
  - now apply run_chain_failed with (docs := docs) (e := e).
Qed.

End Runs.

(** ** More properties of link extraction and [filter_links] *)

(** X1: every link the regex extracts starts with [http://] or [https://],
    contains no whitespace, is at least eight characters long and occurs
    in the scanned text. *)
Theorem extracted_links_shape (text : str) :
  Forall (fun link =>
            has_scheme link = true /\ forallb non_space link = true /\
            8 <= List.length link /\ Infix link text)
         (findall_urls text).
Proof.
  unfold findall_urls. apply Forall_forall. intros link Hin.
  pose proof (findall_from_shape text 0) as Hs.
  pose proof (findall_from_Infix text 0) as Hi.
  rewrite Forall_forall in Hs, Hi.
  destruct (Hs link Hin) as [scheme [run [Hsch [Hne [Hrun ->]]]]].
  split; [now apply has_scheme_intro|]. split.
  { rewrite app_assoc, forallb_app, (scheme_non_space Hsch). exact Hrun. }
  split; [|now apply Hi].
  rewrite !length_app. destruct run; [now elim Hne|].
  destruct Hsch as [->| ->]; simpl; lia.
Qed.

(** X2: links are extracted document by document: the links of the texts
    joined with a space are the links of each text, concatenated, so no
    link spans two documents; the same holds after filtering. *)
Theorem links_extracted_per_document (o : Options) (docs : list Document) :
  findall_urls (join (lit " ") (List.map page_content docs))
  = concat (List.map (fun d => findall_urls (page_content d)) docs)
  /\ extract_links o docs
     = concat (List.map
         (fun d => if show_links o
                   then filter_links (findall_urls (page_content d))
                   else findall_urls (page_content d)) docs).
Proof.
  assert (findall_urls (join (lit " ") (List.map page_content docs))
          = concat (List.map (fun d => findall_urls (page_content d)) docs))
    as H.
  { rewrite findall_join_space, map_map. reflexivity. }
  split; [exact H|]. unfold extract_links. rewrite H.
  destruct (show_links o); [|reflexivity].
  now rewrite filter_links_concat, map_map.
Qed.

(** X3: [filter_links] never lengthens the list and never invents a link:
    every output entry is a contiguous part of an input entry that is not
    denylisted. *)
Theorem filter_links_never_invents (links : list str) :
  List.length (filter_links links) <= List.length links
  /\ Forall (fun out => exists link,
                 In link links /\ is_social link = false /\ Infix out link)
            (filter_links links).
Proof.
  rewrite filter_links_map_filter. split.
  - rewrite length_map. induction links as [|l links IH]; simpl; [lia|].
    destruct (keep l); simpl; lia.
  - apply Forall_forall. intros out Hin. apply in_map_iff in Hin.
    destruct Hin as [link [<- Hin]]. apply filter_In in Hin.
    destruct Hin as [Hin Hk]. exists link. split; [exact Hin|].
    split; [unfold keep in Hk; now apply negb_true_iff|].
    apply strip_by_Infix.
Qed.

(** X4: the output of [filter_links] contains the empty string exactly when
    some input entry consists of the characters [.], [,], [)] only (the
    empty string included): such an entry is kept and stripped to
    nothing, not dropped. *)
Theorem filter_links_empty_entry (links : list str) :
  In [] (filter_links links)
  <-> exists link, In link links /\ all_of punct link.
Proof.
  rewrite filter_links_map_filter, in_map_iff. split.
  - intros [link [Hs Hin]]. apply filter_In in Hin. destruct Hin as [Hin _].
    exists link. split; [exact Hin|]. now apply strip_by_nil_iff.
  - intros [link [Hin Hall]]. exists link. split.
    + now apply strip_by_nil_iff.
    + apply filter_In. split; [exact Hin|]. unfold keep.
      now rewrite punct_only_not_social.
Qed.

Example filter_links_punctuation_only :
  filter_links [lit "...)"; lit "https://a.org/b"] = [[]; lit "https://a.org/b"].
Proof. vm_compute. reflexivity. Qed.

(** ** More properties of [load_docs] *)

(** The body returns, and it returns [None] exactly when the path chosen
    for the URL failed: on the video path the primary loader raised and the
    fallback raised or gave blank output; on the generic path the loader
    raised. *)
Lemma load_docs_body_none_iff_failed (w : World) (url : str) :
  (exists docs, value (load_docs w url) = Returns docs)
  /\ (value (load_docs w url) = Returns None <-> acquisition_failed w url).
Proof.
  split; [apply load_docs_returns|].
  rewrite load_docs_cases. unfold acquisition_failed, fallback_without_text.
  destruct (is_video_url url).
  - destruct (YoutubeLoader_load w url) as [docs|e].
    + split; [discriminate | intros [[e H] _]; discriminate].
    + destruct (subprocess_run w (yt_dlp_argv url)) as [stdout|ye]; cbn.
      * destruct (strip stdout) as [|c s] eqn:E; cbn.
        -- split; [|reflexivity]. intros _. split; [now exists e|].
           now apply strip_by_nil_iff.
        -- split; [discriminate|]. intros [_ H].
           apply strip_by_nil_iff in H. unfold strip in E. rewrite H in E.
           discriminate.
      * split; [|reflexivity]. intros _. split; [now exists e | exact I].
  - destruct (UnstructuredURLLoader_load w [url]) as [docs|e]; cbn.
    + split; [discriminate | intros [e H]; discriminate].
    + split; [|reflexivity]. intros _. now exists e.
Qed.

(** The body runs the yt-dlp subprocess exactly when the URL is a video URL
    and the primary video loader raised; it runs it at most once, with the
    arguments [yt-dlp --get-title --get-description <url>]. *)
Lemma load_docs_body_fallback (w : World) (url : str) :
  (existsb calls_subprocess (trace (load_docs w url)) = true
   <-> is_video_url url = true /\
       exists e, YoutubeLoader_load w url = Raises e)
  /\ count calls_subprocess (trace (load_docs w url)) <= 1
  /\ (forall argv,
        In (ev_subprocess_run argv) (trace (load_docs w url)) ->
        argv = [lit "yt-dlp"; lit "--get-title"; lit "--get-description";
                url]).
Proof.
  assert (forall t : list event,
            (forall e, In e t -> calls_subprocess e = true ->
                       e = ev_subprocess_run (yt_dlp_argv url)) ->
            forall argv, In (ev_subprocess_run argv) t ->
                         argv = yt_dlp_argv url) as Hargv.
  { intros t Ht argv Hin. specialize (Ht _ Hin eq_refl). now injection Ht. }
  destruct (load_docs_runs w url)
    as [[Hv [[d [Hy ->]]|[[e [s [Hy [_ ->]]]]|[e [y [Hy [_ ->]]]]]]]
       |[Hv [[d [_ ->]]|[e [_ ->]]]]]; cbn [trace fst].
  - split; [|split; [cbn; lia|]].
    + cbn. split; [discriminate|]. intros [_ [e H]]. congruence.
    + apply Hargv. cbn. intros e [<-|[]]. discriminate.
  - split; [|split; [cbn; lia|]].
    + cbn. split; [|reflexivity]. intros _. split; [exact Hv|now exists e].
    + apply Hargv. cbn. intros x [<-|[<-|[]]]; [discriminate|reflexivity].
  - split; [|split; [cbn; lia|]].
    + cbn. split; [|reflexivity]. intros _. split; [exact Hv|now exists e].
    + apply Hargv. cbn.
      intros x [<-|[<-|[<-|[]]]]; (discriminate || reflexivity).
  - split; [|split; [cbn; lia|]].
    + cbn. split; [discriminate|]. intros [H _]. congruence.
    + apply Hargv. cbn. intros e [<-|[]]. discriminate.
  - split; [|split; [cbn; lia|]].
    + cbn. split; [discriminate|]. intros [H _]. congruence.
    + apply Hargv. cbn. intros x [<-|[<-|[]]]; discriminate.
Qed.

(** The body displays an error message exactly when the last collaborator
    it tried raised (the subprocess on the video path, the loader on the
    generic path); the message carries that exception's text, and the
    result is then [None]. *)
Lemma load_docs_body_error_iff (w : World) (url : str) :
  (existsb is_error (trace (load_docs w url)) = true
   <-> if is_video_url url
       then (exists e, YoutubeLoader_load w url = Raises e) /\
            (exists e, subprocess_run w (yt_dlp_argv url) = Raises e)
       else exists e, UnstructuredURLLoader_load w [url] = Raises e)
  /\ (forall m, In (st_error m) (trace (load_docs w url)) ->
        value (load_docs w url) = Returns None /\
        ((exists e, m = msg_youtube_failed e /\
                    subprocess_run w (yt_dlp_argv url) = Raises e) \/
         (exists e, m = msg_website_failed e /\
                    UnstructuredURLLoader_load w [url] = Raises e))).
Proof.
  assert (forall (t : list event) (P : message -> Prop),
            (forall x, In x t -> is_error x = true ->
                       exists m, x = st_error m /\ P m) ->
            forall m, In (st_error m) t -> P m) as Hmsg.
  { intros t P Ht m Hin. destruct (Ht _ Hin eq_refl) as [m' [Hm HP]].
    now injection Hm as ->. }
  destruct (load_docs_runs w url)
    as [[Hv [[d [Hy ->]]|[[e [s [Hy [Hs ->]]]]|[e [y [Hy [Hs ->]]]]]]]
       |[Hv [[d [Hu ->]]|[e [Hu ->]]]]]; rewrite Hv;
    cbn [trace fst value snd]; (split; [|apply Hmsg]); cbn.
  - split; [discriminate|]. intros [[e H] _]. congruence.
  - intros x [<-|[]]. discriminate.
  - split; [discriminate|]. intros [_ [e' H]]. congruence.
  - intros x [<-|[<-|[]]]; discriminate.
  - split; [|reflexivity]. intros _. split; [now exists e|now exists y].
  - intros x [<-|[<-|[<-|[]]]]; try discriminate. intros _.
    eexists. split; [reflexivity|]. split; [reflexivity|].
    left. now exists y.
  - split; [discriminate|]. intros [e H]. congruence.
  - intros x [<-|[]]. discriminate.
  - split; [|reflexivity]. intros _. now exists e.
  - intros x [<-|[<-|[]]]; try discriminate. intros _.
    eexists. split; [reflexivity|]. split; [reflexivity|].
    right. now exists e.
Qed.

(** ** The same for the memoised [load_docs] *)

Lemma filter_replay (g : event -> bool) (ms : list message) :
  (forall m, g (st_error m) = false) ->
  filter g (List.map st_error ms) = [].
Proof.
  intros Hg. induction ms as [|m ms IH]; [reflexivity|].
  cbn. now rewrite Hg.
Qed.

(** X5: [load_docs], memoised as it is, returns [None] exactly when the
    path chosen for the URL failed in the call that computed the answer:
    the present call if the URL was never passed before, the first call on
    that URL otherwise, whatever the collaborators do now.  The path failed
    when, for a URL containing [youtube.com] or [youtu.be], the primary
    loader raised and the fallback raised or gave blank output, and for any
    other URL when the generic loader raised. *)
Theorem load_docs_none_iff_failed (h : list (World * str)) (w : World)
  (url : str) :
  value (fst (load_docs_cached (cache_after h) w url)) = Returns None
  <-> ((Infix (lit "youtube.com") url \/ Infix (lit "youtu.be") url) /\
       (exists e,
          YoutubeLoader_load (answering_world h w url) url = Raises e) /\
       fallback_without_text (answering_world h w url) url)
      \/ (~ (Infix (lit "youtube.com") url \/ Infix (lit "youtu.be") url) /\
          exists e,
            UnstructuredURLLoader_load (answering_world h w url) [url]
            = Raises e).
Proof.
  destruct (load_docs_cached_answer h w url) as [_ [_ [-> _]]].
  rewrite (proj2 (load_docs_body_none_iff_failed (answering_world h w url)
                    url)).
  unfold acquisition_failed. pose proof (is_video_url_spec url) as Hs.
  destruct (is_video_url url).
  - assert (Infix (lit "youtube.com") url \/ Infix (lit "youtu.be") url)
      as Hv by now apply Hs.
    split; [intros H; left; now split|].
    intros [[_ H]|[H _]]; [exact H | now elim H].
  - assert (~ (Infix (lit "youtube.com") url \/ Infix (lit "youtu.be") url))
      as Hv by (intros H; apply Hs in H; discriminate).
    split; [intros H; right; now split|].
    intros [[H _]|[_ H]]; [now elim Hv | exact H].
Qed.

(** X6: [load_docs], memoised as it is, runs the yt-dlp subprocess exactly
    when the URL was never passed before, contains [youtube.com] or
    [youtu.be] and the primary video loader raised; it runs it at most
    once, with the arguments [yt-dlp --get-title --get-description <url>].
    A repeated URL never starts the subprocess. *)
Theorem fallback_only_after_primary_failure (h : list (World * str))
  (w : World) (url : str) :
  (existsb calls_subprocess
     (trace (fst (load_docs_cached (cache_after h) w url))) = true
   <-> first_call url h = None /\
       (Infix (lit "youtube.com") url \/ Infix (lit "youtu.be") url) /\
       exists e, YoutubeLoader_load w url = Raises e)
  /\ count calls_subprocess
       (trace (fst (load_docs_cached (cache_after h) w url))) <= 1
  /\ (forall argv,
        In (ev_subprocess_run argv)
           (trace (fst (load_docs_cached (cache_after h) w url))) ->
        argv = [lit "yt-dlp"; lit "--get-title"; lit "--get-description";
                url]).
Proof.
  destruct (load_docs_cached_answer h w url) as [Hmiss [Hhit _]].
  destruct (first_call url h) as [w0|] eqn:E.
  - rewrite Hhit by discriminate. unfold count.
    rewrite existsb_replay, filter_replay by reflexivity.
    split; [|split; [cbn; lia|]].
    + split; [discriminate | intros [H _]; discriminate].
    + intros argv H. apply in_map_iff in H. destruct H as [m [H _]].
      discriminate.
  - rewrite (Hmiss eq_refl).
    destruct (load_docs_body_fallback w url) as [H1 [H2 H3]].
    split; [|split; [exact H2 | exact H3]].
    rewrite H1, is_video_url_spec. tauto.
Qed.

(** X7: [load_docs], memoised as it is, displays an error message of its
    own exactly when, in the call that computed the answer (the present
    call for a new URL, the first call on the URL otherwise), the last
    collaborator tried raised: the subprocess after the primary loader on
    the video path, the loader on the generic path.  The message carries
    the text of that exception, also when it is displayed again from the
    cache, and the result is then [None].  A fallback that returned blank
    output fails without a message from [load_docs]. *)
Theorem load_docs_error_iff (h : list (World * str)) (w : World)
  (url : str) :
  (existsb is_error (trace (fst (load_docs_cached (cache_after h) w url)))
   = true
   <-> ((Infix (lit "youtube.com") url \/ Infix (lit "youtu.be") url) /\
        (exists e,
           YoutubeLoader_load (answering_world h w url) url = Raises e) /\
        (exists e,
           subprocess_run (answering_world h w url) (yt_dlp_argv url)
           = Raises e))
       \/ (~ (Infix (lit "youtube.com") url \/ Infix (lit "youtu.be") url)
           /\ exists e,
                UnstructuredURLLoader_load (answering_world h w url) [url]
                = Raises e))
  /\ (forall m,
        In (st_error m)
           (trace (fst (load_docs_cached (cache_after h) w url))) ->
        value (fst (load_docs_cached (cache_after h) w url)) = Returns None
        /\ ((exists e,
               m = msg_youtube_failed e /\
               subprocess_run (answering_world h w url) (yt_dlp_argv url)
               = Raises e) \/
            (exists e,
               m = msg_website_failed e /\
               UnstructuredURLLoader_load (answering_world h w url) [url]
               = Raises e))).
Proof.
  destruct (load_docs_cached_answer h w url) as [_ [_ [Hval Hin]]].
  destruct (load_docs_body_error_iff (answering_world h w url) url)
    as [H1 H2].
  split.
  - rewrite existsb_is_error_iff.
    assert ((exists m, In (st_error m)
               (trace (fst (load_docs_cached (cache_after h) w url))))
            <-> existsb is_error
                  (trace (load_docs (answering_world h w url) url)) = true)
      as ->.
    { rewrite existsb_is_error_iff. split; intros [m H]; exists m;
        now apply Hin. }
    rewrite H1. pose proof (is_video_url_spec url) as Hs.
    destruct (is_video_url url).
    + assert (Infix (lit "youtube.com") url \/ Infix (lit "youtu.be") url)
        as Hv by now apply Hs.
      split; [intros H; left; tauto|].
      intros [[_ H]|[H _]]; [exact H | now elim H].
    + assert (~ (Infix (lit "youtube.com") url
                 \/ Infix (lit "youtu.be") url))
        as Hv by (intros H; apply Hs in H; discriminate).
      split; [intros H; right; now split|].
      intros [[H _]|[_ H]]; [now elim Hv | exact H].
  - intros m Hm. rewrite Hval. apply H2. now apply Hin.
Qed.

(** ** More properties of the handler *)

Section RunFacts.

Variable w : World.
Variable o : Options.

Lemma existsb_panel (g : event -> bool) (c : bool) (links : list str) :
  (forall link, g (st_link link) = false) ->
  existsb g (if c then st_links_open :: List.map st_link links
                       ++ [st_links_close]
             else [st_info_no_links])
  = existsb g (if c then [st_links_open; st_links_close]
               else [st_info_no_links]).
Proof.
  intros Hg. destruct c; [|reflexivity].
  cbn [existsb]. rewrite existsb_app.
  assert (existsb g (List.map st_link links) = false) as ->.
  { induction links as [|l links IH]; [reflexivity|].
    cbn. now rewrite Hg. }
  reflexivity.
Qed.

Lemma load_docs_some_no_error (url : str) (docs : list Document) :
  value (load_docs w url) = Returns (Some docs) ->
  existsb is_error (trace (load_docs w url)) = false.
Proof.
  intros H. destruct (existsb is_error (trace (load_docs w url))) eqn:E;
    [|reflexivity].
  apply load_docs_error_none in E. congruence.
Qed.

(** A run that displays anything of the result tabs is a complete one. *)
Lemma on_generate_output_complete (url : str) :
  existsb summary_output (on_generate w o url) = true ->
  exists docs output_summary,
    strip url <> [] /\ validators_url w url = true /\
    value (load_docs w url) = Returns (Some docs) /\ docs <> [] /\
    chain_invoke w (summary_style o) (summary_length o) docs
      = Returns output_summary /\
    on_generate w o url
    = ev_load_docs url :: trace (load_docs w url) ++
      [ev_chain_invoke docs; st_tabs; st_summary output_summary;
       st_download_button output_summary] ++
      (if show_links o && truthy (extract_links o docs)
       then st_links_open :: List.map st_link (extract_links o docs)
            ++ [st_links_close]
       else [st_info_no_links]) ++
      [st_stats (List.length (split output_summary))
                (List.length (extract_links o docs))].
Proof.
  pose proof (proj1 (load_docs_no_output w url)) as Hlt.
  destruct (on_generate_runs w o url)
    as [Hs Heq|Hs Hv Heq|docs Hs Hv Hd Ht Heq|docs e Hs Hv Hd Hne Hc Heq
       |docs s Hs Hv Hd Hne Hc Heq]; rewrite Heq at 1.
  - discriminate.
  - discriminate.
  - cbn [existsb summary_output orb]. rewrite existsb_app, Hlt. discriminate.
  - cbn [existsb summary_output orb]. rewrite existsb_app, Hlt. discriminate.
  - intros _. now exists docs, s.
Qed.

Lemma filtered_links_shape (text : str) :
  Forall (fun link =>
            has_scheme link = true /\ forallb non_space link = true /\
            is_social link = false /\ clean_ends punct link)
         (filter_links (findall_urls text)).
Proof.
  rewrite filter_links_map_filter. apply Forall_forall. intros out Hin.
  apply in_map_iff in Hin. destruct Hin as [link [<- Hin]].
  apply filter_In in Hin. destruct Hin as [Hin Hk].
  pose proof (findall_from_shape text 0) as Hs. rewrite Forall_forall in Hs.
  destruct (Hs link Hin) as [scheme [run [Hsch [_ [Hrun ->]]]]].
  split; [|split; [|split]].
  - rewrite strip_match by exact Hsch. now apply has_scheme_intro.
  - rewrite strip_match by exact Hsch.
    rewrite app_assoc, forallb_app, (scheme_non_space Hsch).
    now apply rstrip_by_all.
  - apply keep_strip in Hk. unfold keep in Hk. now apply negb_true_iff.
  - destruct (strip_by_spec punct (scheme ++ lit "://" ++ run))
      as [p [q [_ [_ [_ H]]]]]. exact H.
Qed.

End RunFacts.

(** With the body run (nothing memoised), a raising generic loader gives
    two error messages and nothing else. *)
Lemma generic_failure_body (w : World) (o : Options)
  (url web_err : str) :
  is_video_url url = false ->
  strip url <> [] -> validators_url w url = true ->
  UnstructuredURLLoader_load w [url] = Raises web_err ->
  on_generate w o url
  = [ev_load_docs url; ev_UnstructuredURLLoader [url];
     st_error (msg_website_failed web_err); st_error msg_no_content].
Proof.
  intros Hvid Hs Hv Hu.
  rewrite (on_generate_valid w o url Hs Hv).
  rewrite load_docs_cases, Hvid, Hu. reflexivity.
Qed.

(** X8: when the generic loader raised on a non-blank, accepted URL that
    contains neither [youtube.com] nor [youtu.be], in the call that
    computed the answer, the user sees two error messages, the loader's
    failure with that exception's text and then "No content found", and
    nothing else of the result.  The generic loader is called only if the
    URL was never passed before; a repeated press shows the same two
    messages from the cache without calling it, whatever the loader would
    do now. *)
Theorem generic_failure_two_errors (h : list (World * str)) (w : World)
  (o : Options) (url web_err : str) :
  ~ (Infix (lit "youtube.com") url \/ Infix (lit "youtu.be") url) ->
  strip url <> [] -> validators_url w url = true ->
  UnstructuredURLLoader_load (answering_world h w url) [url]
  = Raises web_err ->
  fst (on_generate_cached (cache_after h) w o url)
  = ev_load_docs url ::
    (match first_call url h with
     | None => [ev_UnstructuredURLLoader [url]]
     | Some _ => []
     end) ++
    [st_error (msg_website_failed web_err); st_error msg_no_content].
Proof.
  intros Hvid Hs Hv Hu.
  assert (is_video_url url = false) as Hvid'.
  { destruct (is_video_url url) eqn:E; [|reflexivity].
    elim Hvid. now apply is_video_url_spec. }
  pose proof (cache_after_lookup url h) as Hl. unfold answering_world in Hu.
  destruct (first_call url h) as [w0|] eqn:E.
  - assert (load_docs w0 url
            = ([ev_UnstructuredURLLoader [url];
                st_error (msg_website_failed web_err)], Returns None))
      as Hbody by (rewrite load_docs_cases, Hvid', Hu; reflexivity).
    unfold record_call in Hl. rewrite Hbody in Hl.
    cbn [value snd trace fst messages flat_map app] in Hl.
    unfold on_generate_cached. rewrite Hv.
    destruct (strip url); [now elim Hs|]. cbn [truthy negb].
    rewrite (load_docs_cached_hit _ w _ Hl). reflexivity.
  - rewrite on_generate_cached_miss by exact Hl.
    now apply generic_failure_body.
Qed.

Lemma generic_failure_two_errors_witness :
  fst (on_generate_cached
         (cache_after
            [(constant_world (Returns []) (Returns [])
                (Raises (lit "timeout")) (Returns (lit "summary")),
              lit "https://example.com/")])
         (constant_world (Returns []) (Returns [])
            (Returns [mkDocument (lit "page text") []])
            (Returns (lit "summary")))
         (mkOptions 300 true Paragraph) (lit "https://example.com/"))
  = [ev_load_docs (lit "https://example.com/");
     st_error (msg_website_failed (lit "timeout"));
     st_error msg_no_content].
Proof.
  refine (@generic_failure_two_errors
    [(constant_world (Returns []) (Returns [])
        (Raises (lit "timeout")) (Returns (lit "summary")),
      lit "https://example.com/")]
    (constant_world (Returns []) (Returns [])
       (Returns [mkDocument (lit "page text") []])
       (Returns (lit "summary")))
    (mkOptions 300 true Paragraph) (lit "https://example.com/")
    (lit "timeout") _ _ eq_refl eq_refl).
  - intros H. apply is_video_url_spec in H. vm_compute in H. discriminate.
  - vm_compute. discriminate.
Defined.

(** The first press of the same scenario calls the loader. *)
Example generic_failure_first_press :
  fst (on_generate_cached (cache_after [])
         (constant_world (Returns []) (Returns [])
            (Raises (lit "timeout")) (Returns (lit "summary")))
         (mkOptions 300 true Paragraph) (lit "https://example.com/"))
  = [ev_load_docs (lit "https://example.com/");
     ev_UnstructuredURLLoader [lit "https://example.com/"];
     st_error (msg_website_failed (lit "timeout"));
     st_error msg_no_content].
Proof. vm_compute. reflexivity. Qed.



(** X10: every press of the button ends in exactly one of two ways: the
    handler displays at least one error message and nothing of the result
    tabs, or it displays the result tabs and no error message. *)
Theorem error_xor_result (w : World) (o : Options) (url : str) :
  existsb is_error (on_generate w o url)
  = negb (existsb summary_output (on_generate w o url)).
Proof.
  pose proof (proj1 (load_docs_no_output w url)) as Hlt.
  destruct (on_generate_runs w o url)
    as [Hs Heq|Hs Hv Heq|docs Hs Hv Hd Ht Heq|docs e Hs Hv Hd Hne Hc Heq
       |docs s Hs Hv Hd Hne Hc Heq]; rewrite Heq.
  - reflexivity.
  - reflexivity.
  - cbn [existsb is_error summary_output orb].
    rewrite !existsb_app, Hlt. cbn. now rewrite orb_true_r.
  - cbn [existsb is_error summary_output orb].
    rewrite !existsb_app, Hlt. cbn. now rewrite orb_true_r.
  - cbn [existsb is_error summary_output orb].
    rewrite !existsb_app, Hlt, (load_docs_some_no_error w url Hd).
    rewrite existsb_panel by reflexivity. cbn.
    now destruct (show_links o && truthy (extract_links o docs)).
Qed.




(** X13: the script acquires content only behind all four gates:
    [load_docs] is called exactly when the credential is set and not empty,
    the button was pressed, the input is not blank and the validator
    accepts it.  Without the credential the script shows the missing-key
    error and stops, whatever the other inputs. *)
Theorem acquisition_gated (w : World) (groq_api_key : option str)
  (o : Options) (url : str) (button : bool) :
  (existsb calls_load_docs (main w groq_api_key o url button) = true
   <-> key_present groq_api_key = true /\ button = true /\
       strip url <> [] /\ validators_url w url = true)
  /\ (key_present groq_api_key = false ->
      main w groq_api_key o url button = [st_error msg_no_api_key; st_stop]).
Proof.
  assert (existsb calls_load_docs (on_generate w o url) = true
          <-> strip url <> [] /\ validators_url w url = true) as Hog.
  { destruct (on_generate_runs w o url)
      as [Hs Heq|Hs Hv Heq|docs Hs Hv Hd Ht Heq|docs e Hs Hv Hd Hne Hc Heq
         |docs s Hs Hv Hd Hne Hc Heq]; rewrite Heq; cbn.
    - split; [discriminate | intros [H _]; now elim H].
    - split; [discriminate | intros [_ H]; congruence].
    - now split.
    - now split.
    - now split. }
  split.
  - destruct groq_api_key as [[|c k]|]; cbn.
    + split; [discriminate | intros [H _]; discriminate].
    + destruct button; cbn.
      * rewrite Hog. tauto.
      * split; [discriminate | intros [_ [H _]]; discriminate].
    + split; [discriminate | intros [H _]; discriminate].
  - destruct groq_api_key as [[|c k]|]; cbn; (reflexivity || discriminate).
Qed.

(** X14: which inline error a rejected input gets: the "enter a URL"
    message exactly when the input is empty or whitespace only, and the
    "invalid URL" message exactly when it is not blank and the validator
    rejects it; blankness is tested first. *)
Theorem validation_messages (w : World) (o : Options) (url : str) :
  (on_generate w o url = [st_error msg_enter_url] <-> all_of is_space url)
  /\ (on_generate w o url = [st_error msg_invalid_url]
      <-> ~ all_of is_space url /\ validators_url w url = false).
Proof.
  assert (strip url = [] <-> all_of is_space url) as Hb
    by apply strip_by_nil_iff.
  destruct (on_generate_runs w o url)
    as [Hs Heq|Hs Hv Heq|docs Hs Hv Hd Ht Heq|docs e Hs Hv Hd Hne Hc Heq
       |docs s Hs Hv Hd Hne Hc Heq]; rewrite Heq, <- Hb.
  - split; [tauto|]. split; [discriminate | intros [H _]; now elim H].
  - split; [|tauto]. split; [discriminate | intros H; now elim Hs].
  - split; (split; [discriminate|]); [intros H; now elim Hs|].
    intros [_ H]; congruence.
  - split; (split; [discriminate|]); [intros H; now elim Hs|].
    intros [_ H]; congruence.
  - split; (split; [discriminate|]); [intros H; now elim Hs|].
    intros [_ H]; congruence.
Qed.

(** X15: every link the handler displays starts with [http://] or
    [https://], contains no whitespace, is not on the social-media denylist
    and neither begins nor ends with [.], [,] or [)]. *)
Theorem shown_links_shape (w : World) (o : Options) (url : str) :
  Forall (fun link =>
            has_scheme link = true /\ forallb non_space link = true /\
            is_social link = false /\ clean_ends punct link)
         (shown_links (on_generate w o url)).
Proof.
  destruct (existsb summary_output (on_generate w o url)) eqn:E.
  2:{ rewrite (shown_links_none _ E). constructor. }
  destruct (on_generate_output_complete w o url E)
    as [docs [s [_ [_ [_ [_ [_ Heq]]]]]]].
  rewrite Heq. change (ev_load_docs url :: ?t) with ([ev_load_docs url] ++ t).
  rewrite !shown_links_app.
  rewrite (shown_links_none _ (proj1 (load_docs_no_output w url))).
  cbn [app]. change (shown_links [ev_load_docs url]) with (@nil str).
  change (shown_links [ev_chain_invoke docs; st_tabs; st_summary s;
                       st_download_button s]) with (@nil str).
  cbn [app]. rewrite app_nil_r.
  destruct (show_links o) eqn:Eshow; cbn [andb]; [|constructor].
  destruct (truthy (extract_links o docs)); [|constructor].
  change (st_links_open :: List.map st_link (extract_links o docs)
            ++ [st_links_close])
    with ([st_links_open] ++ List.map st_link (extract_links o docs)
            ++ [st_links_close]).
  rewrite !shown_links_app, shown_links_st_link. cbn [app].
  change (shown_links [st_links_open]) with (@nil str).
  change (shown_links [st_links_close]) with (@nil str).
  cbn [app]. rewrite app_nil_r.
  unfold extract_links. rewrite Eshow. apply filtered_links_shape.
Qed.



(** ** The prompt templates *)

Section Prompts.

Lemma Infix_here (needle q : str) : Infix needle (needle ++ q).
Proof. now exists [], q. Qed.

Lemma Infix_skip (needle a b : str) :
  Infix needle b -> Infix needle (a ++ b).
Proof.
  intros [p [q ->]]. exists (a ++ p), q. now rewrite <- app_assoc.
Qed.

Lemma digits_no_brace (d : Decimal.uint) :
  filter is_brace (lit (DecimalString.NilEmpty.string_of_uint d)) = [].
Proof. induction d; cbn; auto. Qed.

Lemma str_of_int_no_brace (n : Z) : filter is_brace (str_of_int n) = [].
Proof.
  unfold str_of_int. destruct (Z.to_int n) as [d|d]; cbn.
  - destruct d; try reflexivity; apply (digits_no_brace (_ d)).
  - destruct d; try reflexivity; apply (digits_no_brace (_ d)).
Qed.

End Prompts.

(** X17: whatever style and length the user chooses, each of the two
    prompt templates has exactly one pair of braces, those of the
    placeholder [{text}], which is the single declared input variable; the
    chosen style (in lower case) and, in the combining prompt, the chosen
    length (in decimal) occur in the text. *)
Theorem prompt_templates_one_placeholder (st : style) (n : Z) :
  filter is_brace (template (map_prompt st)) = [123; 125]%N
  /\ filter is_brace (template (combine_prompt st n)) = [123; 125]%N
  /\ Infix (lit "{text}") (template (map_prompt st))
  /\ Infix (lit "{text}") (template (combine_prompt st n))
  /\ input_variables (map_prompt st) = [lit "text"]
  /\ input_variables (combine_prompt st n) = [lit "text"]
  /\ Infix (lower (style_label st)) (template (map_prompt st))
  /\ Infix (lower (style_label st)) (template (combine_prompt st n))
  /\ Infix (str_of_int n) (template (combine_prompt st n)).
Proof.
  split; [destruct st; vm_compute; reflexivity|].
  split.
  { cbn [template combine_prompt]. rewrite !filter_app.
    rewrite str_of_int_no_brace. destruct st; vm_compute; reflexivity. }
  cbn [template input_variables map_prompt combine_prompt].
  repeat split;
    repeat first [apply Infix_here | apply Infix_skip].
Qed.

Example combine_prompt_default_options :
  Infix (lit "- Format as bullet points")
        (template (combine_prompt BulletPoints 300))
  /\ Infix (lit "- Make it around 300 words")
           (template (combine_prompt BulletPoints 300)).
Proof. split; apply str_in_spec; vm_compute; reflexivity. Qed.

(** ** Word count and the input as forwarded *)

Section Words.

Lemma filter_non_space_spaces (ws : str) :
  all_of is_space ws -> filter non_space ws = [].
Proof.
  unfold all_of. induction ws as [|c ws IH]; [reflexivity|].
  simpl. intros H. apply andb_true_iff in H. destruct H as [Hc Hws].
  unfold non_space at 1. rewrite Hc. cbn. now apply IH.
Qed.

Lemma filter_non_space_word (t : str) :
  all_of non_space t -> filter non_space t = t.
Proof.
  unfold all_of. induction t as [|c t IH]; [reflexivity|].
  simpl. intros H. apply andb_true_iff in H. destruct H as [Hc Ht].
  rewrite Hc. now rewrite IH.
Qed.

Lemma Tokenization_facts (s : str) (toks : list str) :
  Tokenization s toks ->
  concat toks = filter non_space s
  /\ Forall (fun t => t <> []) toks
  /\ (toks = [] <-> all_of is_space s).
Proof.
  induction 1 as [ws Hws | ws t rest toks Hws Hne Ht Hb _ [IH1 [IH2 _]]].
  - rewrite filter_non_space_spaces by exact Hws.
    split; [reflexivity|]. split; [constructor|]. tauto.
  - split; [|split].
    + rewrite !filter_app, filter_non_space_spaces by exact Hws.
      rewrite filter_non_space_word by exact Ht. cbn. now rewrite IH1.
    + now constructor.
    + split; [discriminate|]. unfold all_of. rewrite !forallb_app.
      destruct t as [|c t]; [now elim Hne|].
      unfold all_of in Ht. simpl in Ht. apply andb_true_iff in Ht.
      destruct Ht as [Hc _]. unfold non_space in Hc.
      apply negb_true_iff in Hc. cbn [forallb]. rewrite Hc.
      cbn. rewrite andb_false_r. discriminate.
Qed.

Lemma concat_length_ge (toks : list str) :
  Forall (fun t => t <> []) toks ->
  List.length toks <= List.length (concat toks).
Proof.
  induction 1 as [|t toks Ht _ IH]; [reflexivity|].
  cbn. rewrite length_app. destruct t; [now elim Ht | simpl; lia].
Qed.

End Words.

(** X18: whenever the statistics are displayed, the word count is zero
    exactly when the displayed summary is empty or whitespace only, and it
    never exceeds the number of non-whitespace characters of the summary. *)
Theorem word_count_bounds (w : World) (o : Options) (url : str)
  (word_count link_count : nat) :
  In (st_stats word_count link_count) (on_generate w o url) ->
  exists output_summary,
    In (st_summary output_summary) (on_generate w o url) /\
    (word_count = 0 <-> all_of is_space output_summary) /\
    word_count <= List.length (filter non_space output_summary).
Proof.
  intros Hin. apply on_generate_stats in Hin.
  destruct Hin as [docs [s [_ [_ [Heq [-> _]]]]]].
  exists s. split.
  { rewrite Heq. right. apply in_or_app. right. cbn. tauto. }
  destruct (Tokenization_facts (split_Tokenization s)) as [Hc [Hne Hnil]].
  split.
  - rewrite <- Hnil. destruct (split s); [tauto|].
    split; discriminate.
  - rewrite <- Hc. now apply concat_length_ge.
Qed.

Lemma word_count_bounds_witness :
  In (st_stats 0 0)
     (on_generate
        (constant_world (Returns []) (Returns [])
           (Returns [mkDocument (lit "page text") []])
           (Returns (lit "   ")))
        (mkOptions 300 true Paragraph) (lit "https://example.com/"))
  /\ exists output_summary,
       In (st_summary output_summary)
          (on_generate
             (constant_world (Returns []) (Returns [])
                (Returns [mkDocument (lit "page text") []])
                (Returns (lit "   ")))
             (mkOptions 300 true Paragraph) (lit "https://example.com/")) /\
       (0 = 0 <-> all_of is_space output_summary) /\
       0 <= List.length (filter non_space output_summary).
Proof.
  assert (In (st_stats 0 0)
     (on_generate
        (constant_world (Returns []) (Returns [])
           (Returns [mkDocument (lit "page text") []])
           (Returns (lit "   ")))
        (mkOptions 300 true Paragraph) (lit "https://example.com/"))) as H.
  { vm_compute. tauto. }
  split; [exact H|].
  exact (@word_count_bounds
    (constant_world (Returns []) (Returns [])
       (Returns [mkDocument (lit "page text") []]) (Returns (lit "   ")))
    (mkOptions 300 true Paragraph) (lit "https://example.com/") 0 0 H).
Defined.

(** X19: the input is forwarded as typed: every call of [load_docs] and of
    a loader made by the handler is on the submitted string itself,
    surrounding whitespace included, which is stripped for the blank test
    only. *)
Theorem input_forwarded_unchanged (w : World) (o : Options) (url : str) :
  (forall u, In (ev_load_docs u) (on_generate w o url) -> u = url)
  /\ (forall u, In (ev_YoutubeLoader u) (on_generate w o url) -> u = url)
  /\ (forall us, In (ev_UnstructuredURLLoader us) (on_generate w o url) ->
        us = [url])
  /\ (forall argv, In (ev_subprocess_run argv) (on_generate w o url) ->
        last argv [] = url).
Proof.
  assert (forall x, In x (on_generate w o url) ->
            calls_load_docs x || calls_video_loader x
            || calls_generic_loader x = true ->
            x = ev_load_docs url \/ x = ev_YoutubeLoader url \/
            x = ev_UnstructuredURLLoader [url] \/
            x = ev_subprocess_run (yt_dlp_argv url)) as Hx.
  { assert (forall x, In x (trace (load_docs w url)) ->
              calls_load_docs x || calls_video_loader x
              || calls_generic_loader x = true ->
              x = ev_load_docs url \/ x = ev_YoutubeLoader url \/
              x = ev_UnstructuredURLLoader [url] \/
              x = ev_subprocess_run (yt_dlp_argv url)) as Hl.
    { destruct (load_docs_runs w url)
        as [[_ [[d [_ ->]]|[[e [s [_ [_ ->]]]]|[e [y [_ [_ ->]]]]]]]
           |[_ [[d [_ ->]]|[e [_ ->]]]]]; cbn [trace fst];
        intros x Hin; cbn in Hin;
        repeat (destruct Hin as [<-|Hin]; [cbn; (discriminate || tauto)|]);
        contradiction. }
    assert (forall x tail,
              (forall y, In y tail ->
                 calls_load_docs y || calls_video_loader y
                 || calls_generic_loader y = false) ->
              In x (ev_load_docs url :: trace (load_docs w url) ++ tail) ->
              calls_load_docs x || calls_video_loader x
              || calls_generic_loader x = true ->
              x = ev_load_docs url \/ x = ev_YoutubeLoader url \/
              x = ev_UnstructuredURLLoader [url] \/
              x = ev_subprocess_run (yt_dlp_argv url)) as Ht.
    { intros x tail Htail [<-|Hin] Hc; [now left|].
      apply in_app_or in Hin. destruct Hin as [Hin|Hin]; [now apply Hl|].
      rewrite (Htail _ Hin) in Hc. discriminate. }
    destruct (on_generate_runs w o url)
      as [Hs Heq|Hs Hv Heq|docs Hs Hv Hd Ht' Heq|docs e Hs Hv Hd Hne Hc Heq
         |docs s Hs Hv Hd Hne Hc Heq]; rewrite Heq.
    - intros x [<-|[]]. discriminate.
    - intros x [<-|[]]. discriminate.
    - intros x. apply Ht. intros y [<-|[]]. reflexivity.
    - intros x. apply Ht. intros y [<-|[<-|[]]]; reflexivity.
    - intros x. apply Ht. intros y Hy. cbn [app In] in Hy.
      destruct Hy as [<-|[<-|[<-|[<-|Hy]]]]; try reflexivity.
      apply in_app_or in Hy. destruct Hy as [Hy|[<-|[]]]; [|reflexivity].
      destruct (show_links o && truthy (extract_links o docs)).
      + destruct Hy as [<-|Hy]; [reflexivity|]. apply in_app_or in Hy.
        destruct Hy as [Hy|[<-|[]]]; [|reflexivity].
        apply in_map_iff in Hy. destruct Hy as [l [<- _]]. reflexivity.
      + destruct Hy as [<-|[]]. reflexivity. }
  repeat split; intros u Hin; destruct (Hx _ Hin eq_refl)
    as [H|[H|[H|H]]]; try discriminate; now injection H as ->.
Qed.
